(** * flaglib: the command-line flag parser of [typescript/flaglib.js]

    A shallow embedding of the parsing engine (classifier, value binder,
    error merge, short and long flag handlers, parse driver) together with
    the properties stated about it.

    Conventions of the embedding.
    - A JavaScript string is a [string]; every character stands for one
      UTF-16 code unit below 256.  Slicing, indexing, [startsWith] and
      [indexOf] act per code unit, as in the host.
    - A JavaScript number is a [JsNumber]: NaN, an infinity or an exact
      rational.  Rounding to IEEE doubles, overflow to an infinity and
      the sign of zero are outside the embedding; the parser only ever
      tests a number for NaN.
    - The registry is mutated in place by the source.  Here every function
      that mutates a descriptor receives the descriptor list and returns the
      updated list; a descriptor found by [Array.prototype.find] is
      identified by its index.
    - The descriptors of a registry are taken to be distinct objects: no
      descriptor is listed twice.
    - [null] and [undefined] are [None]. *)

From Stdlib Require Import String Ascii List ZArith QArith Bool Lia.
From stdpp Require Import base list.

Import ListNotations.
#[local] Open Scope string_scope.
#[local] Open Scope list_scope.
#[local] Open Scope nat_scope.

(** ** Host strings *)

Module JsString.

(** [s.slice(n)] for [0 <= n]. *)
Fixpoint slice (n : nat) (s : string) : string :=
  match n, s with
  | O, _ => s
  | S _, EmptyString => EmptyString
  | S n', String _ r => slice n' r
  end.

(** [s.slice(0, n)]. *)
Fixpoint sliceTo (n : nat) (s : string) : string :=
  match n, s with
  | O, _ => EmptyString
  | S _, EmptyString => EmptyString
  | S n', String c r => String c (sliceTo n' r)
  end.

(** [s.startsWith(p)]. *)
Definition startsWith (p s : string) : bool := String.prefix p s.

(** [s.indexOf(c)] for a one-character needle; [None] is [-1]. *)
Fixpoint indexOf (c : ascii) (s : string) : option nat :=
  match s with
  | EmptyString => None
  | String d r =>
      if Ascii.eqb d c then Some O
      else match indexOf c r with
           | Some k => Some (S k)
           | None => None
           end
  end.

(** Truthiness of a string: only the empty string is falsy. *)
Definition truthy (s : string) : bool :=
  match s with
  | EmptyString => false
  | String _ _ => true
  end.

(** [xs.join(sep)]. *)
Definition join (sep : string) (xs : list string) : string :=
  String.concat sep xs.

(** The characters matched by the regular expression class [\s] and by
    the StrWhiteSpaceChar production, among code units below 256. *)
Definition isWhiteSpace (c : ascii) : bool :=
  let n := nat_of_ascii c in
  (n =? 9) || (n =? 10) || (n =? 11) || (n =? 12) || (n =? 13)
  || (n =? 32) || (n =? 160).

Fixpoint existsChar (p : ascii -> bool) (s : string) : bool :=
  match s with
  | EmptyString => false
  | String c r => p c || existsChar p r
  end.

Fixpoint rev_append (s acc : string) : string :=
  match s with
  | EmptyString => acc
  | String c r => rev_append r (String c acc)
  end.

Definition rev (s : string) : string := rev_append s EmptyString.

Fixpoint trimStart (s : string) : string :=
  match s with
  | EmptyString => EmptyString
  | String c r => if isWhiteSpace c then trimStart r else s
  end.

Definition trim (s : string) : string :=
  rev (trimStart (rev (trimStart s))).

End JsString.

(** ** Host numbers *)

Inductive JsNumber : Type :=
| NaN
| Infinity (negative : bool)
| Finite (q : Q).

Module JsNum.

(** [Number.isNaN]. *)
Definition isNaN (n : JsNumber) : bool :=
  match n with
  | NaN => true
  | _ => false
  end.

Definition ofZ (z : Z) : JsNumber := Finite (inject_Z z).

Definition digit (radix : Z) (c : ascii) : option Z :=
  let n := Z.of_nat (nat_of_ascii c) in
  let d :=
    if (48 <=? n)%Z && (n <=? 57)%Z then Some (n - 48)%Z
    else if (97 <=? n)%Z && (n <=? 102)%Z then Some (n - 87)%Z
    else if (65 <=? n)%Z && (n <=? 70)%Z then Some (n - 55)%Z
    else None in
  match d with
  | Some v => if (v <? radix)%Z then Some v else None
  | None => None
  end.

(** Reads the longest run of digits of the radix: the value of the run,
    its length and what follows it. *)
Fixpoint digits (radix : Z) (s : string) (acc : Z) (count : nat)
  : Z * nat * string :=
  match s with
  | EmptyString => (acc, count, s)
  | String c r =>
      match digit radix c with
      | Some v => digits radix r (acc * radix + v)%Z (S count)
      | None => (acc, count, s)
      end
  end.

(** NonDecimalIntegerLiteral: [0x], [0o] or [0b] and at least one digit. *)
Definition nonDecimal (s : string) : option JsNumber :=
  match s with
  | String "0" (String p r) =>
      let radix :=
        if Ascii.eqb p "x" || Ascii.eqb p "X" then Some 16%Z
        else if Ascii.eqb p "o" || Ascii.eqb p "O" then Some 8%Z
        else if Ascii.eqb p "b" || Ascii.eqb p "B" then Some 2%Z
        else None in
      match radix with
      | Some b =>
          match digits b r 0%Z O with
          | (v, S _, EmptyString) => Some (ofZ v)
          | _ => None
          end
      | None => None
      end
  | _ => None
  end.

Definition sign (s : string) : bool * string :=
  match s with
  | String "-" r => (true, r)
  | String "+" r => (false, r)
  | _ => (false, s)
  end.

(** ExponentPart, optional, which must end the literal. *)
Definition exponent (s : string) : option Z :=
  match s with
  | EmptyString => Some 0%Z
  | String e r =>
      if Ascii.eqb e "e" || Ascii.eqb e "E" then
        let '(neg, r') := sign r in
        match digits 10 r' 0%Z O with
        | (v, S _, EmptyString) => Some (if neg then (- v)%Z else v)
        | _ => None
        end
      else None
  end.

Definition scaled (neg : bool) (mantissa : Z) (exp10 : Z) : JsNumber :=
  let m := if neg then (- mantissa)%Z else mantissa in
  Finite (Qred (inject_Z m * Qpower (inject_Z 10) exp10)).

(** StrDecimalLiteral: sign, then [Infinity] or digits with an optional
    fraction and exponent. *)
Definition decimal (s : string) : option JsNumber :=
  let '(neg, body) := sign s in
  if String.eqb body "Infinity" then Some (Infinity neg)
  else
    let '(int, nint, r1) := digits 10 body 0%Z O in
    match r1 with
    | String "." r2 =>
        let '(m, nfrac, r3) := digits 10 r2 int O in
        match (nint + nfrac)%nat with
        | O => None
        | S _ =>
            match exponent r3 with
            | Some e => Some (scaled neg m (e - Z.of_nat nfrac))
            | None => None
            end
        end
    | _ =>
        match nint with
        | O => None
        | S _ =>
            match exponent r1 with
            | Some e => Some (scaled neg int e)
            | None => None
            end
        end
    end.

(** [Number(s)] on a string: StringToNumber.  White space is trimmed,
    the empty string is [0], anything that is not a numeric literal is
    NaN. *)
Definition Number (s : string) : JsNumber :=
  let t := JsString.trim s in
  match t with
  | EmptyString => ofZ 0
  | _ =>
      match nonDecimal t with
      | Some n => n
      | None =>
          match decimal t with
          | Some n => n
          | None => NaN
          end
      end
  end.

End JsNum.

(** ** Errors *)

(** The error kinds; [kindValue] is the number the source gives each one
    and the priority used when errors are merged. *)
Inductive ErrorKind : Type :=
| MISSING_REQUIRED
| NOT_A_NUMBER
| NOT_ONE_OF
| NOT_INVERTABLE
| UNEXPECTED_ARG
| MISSING_ARG
| UNRECOGNIZED_FLAG.

Definition kindValue (k : ErrorKind) : Z :=
  match k with
  | MISSING_REQUIRED => 1
  | NOT_A_NUMBER => 2
  | NOT_ONE_OF => 3
  | NOT_INVERTABLE => 4
  | UNEXPECTED_ARG => 5
  | MISSING_ARG => 6
  | UNRECOGNIZED_FLAG => 7
  end.

Record ParserError : Type := mkError
  { kind : ErrorKind;
    message : string }.

(** A template literal prints an undefined substitution as [undefined]. *)
Definition template (x : option string) : string :=
  match x with
  | Some s => s
  | None => "undefined"
  end.

(** The constructor of class [ParserError]. *)
Definition newParserError (k : ErrorKind) (arg : string)
  (morearg : option string) : ParserError :=
  mkError k
    match k with
    | MISSING_REQUIRED => "missing required flag - `" ++ arg ++ "`"
    | NOT_A_NUMBER => "the `" ++ arg ++ "` flag expects a numerical value"
    | NOT_ONE_OF =>
        "the `" ++ arg ++ "` flag expects one of: " ++ template morearg
    | NOT_INVERTABLE => "the `" ++ arg ++ "` flag cannot be inverted"
    | UNEXPECTED_ARG => "the `" ++ arg ++ "` flag does not expect an argument"
    | MISSING_ARG => "the `" ++ arg ++ "` flag expects an argument"
    | UNRECOGNIZED_FLAG => "unrecognized flag - `" ++ arg ++ "`"
    end%string.

(** [setError]: keeps the old error unless the new one has a strictly
    greater kind. *)
Definition setError (error newError : option ParserError)
  : option ParserError :=
  match newError, error with
  | None, _ => error
  | Some _, None => newError
  | Some n, Some e =>
      if (kindValue (kind n) >? kindValue (kind e))%Z then newError else error
  end.

(** ** Argument classifier *)

Inductive ArgType : Type :=
| FLAG_LONG
| FLAG_SHORT
| POSITIONAL
| FORCE_FLAG_END.

Definition isPositional (t : ArgType) : bool :=
  match t with
  | POSITIONAL => true
  | _ => false
  end.

Definition parseArgType (arg : string) (forceEnd : bool) : ArgType :=
  if forceEnd then POSITIONAL
  else if String.eqb arg "--" then FORCE_FLAG_END
  else if JsString.startsWith "--" arg then FLAG_LONG
  else match arg with
       | String "-" _ => FLAG_SHORT
       | _ => POSITIONAL
       end.

(** ** Stringify *)

(** The values [stringify] is applied to by the parser: [null], strings
    and arrays.  The branch for other scalars, [String(value)], is used
    by callers only. *)
#[warnings="-register-all"]
Inductive JsValue : Type :=
| VNull
| VString (s : string)
| VArray (xs : list JsValue).

Definition doubleQuote : string := String (ascii_of_nat 34) EmptyString.

Fixpoint stringify (value : JsValue) : string :=
  match value with
  | VNull => "N/A"
  | VArray xs => JsString.join ", " (map stringify xs)
  | VString s =>
      if JsString.existsChar JsString.isWhiteSpace s
      then (doubleQuote ++ s ++ doubleQuote)%string
      else s
  end.

(** ** Flag descriptors *)

Record BooleanOptions : Type :=
  { urgent : option bool }.

Record NumberOptions : Type :=
  { numberDefault : option JsNumber;
    numberArgName : option string;
    numberRequired : option bool }.

Record StringOptions : Type :=
  { stringDefault : option string;
    argOptional : option string;
    stringArgName : option string;
    oneOf : option (list string);
    stringRequired : option bool }.

(** The [type] tag with the options of the kind and the [current] slot. *)
Inductive FlagBody : Type :=
| BooleanFlag (options : BooleanOptions) (current : option bool)
| NumberFlag (options : NumberOptions) (current : option JsNumber)
| StringFlag (options : StringOptions) (current : option string).

Record Flag : Type := mkFlag
  { long : string;
    description : string;
    short : option string;
    invertable : option bool;
    body : FlagBody }.

(** Assignment to [flag.current] of a value of the flag's kind: the other
    properties are kept. *)
Definition withBody (flag : Flag) (b : FlagBody) : Flag :=
  mkFlag (long flag) (description flag) (short flag) (invertable flag) b.

Definition isBoolean (flag : Flag) : bool :=
  match body flag with
  | BooleanFlag _ _ => true
  | _ => false
  end.

(** Truthiness of an optional boolean property. *)
Definition isTrue (b : option bool) : bool :=
  match b with
  | Some true => true
  | _ => false
  end.

(** [flag.type === "string" && flag.argOptional !== undefined], with the
    value. *)
Definition definedArgOptional (flag : Flag) : option string :=
  match body flag with
  | StringFlag o _ => argOptional o
  | _ => None
  end.

(** The flag-defining functions. *)
Definition boolean (long description : string) (short : option string)
  (invertable : option bool) (options : BooleanOptions) : Flag :=
  mkFlag long description short invertable (BooleanFlag options None).

Definition string_ (long description : string) (short : option string)
  (invertable : option bool) (options : StringOptions) : Flag :=
  mkFlag long description short invertable (StringFlag options None).

Definition number (long description : string) (short : option string)
  (invertable : option bool) (options : NumberOptions) : Flag :=
  mkFlag long description short invertable (NumberFlag options None).

(** [flags.find(p)]: the first descriptor that satisfies [p], with its
    position in the list. *)
Fixpoint findFlag (p : Flag -> bool) (flags : list Flag)
  : option (nat * Flag) :=
  match flags with
  | [] => None
  | flag :: rest =>
      if p flag then Some (O, flag)
      else match findFlag p rest with
           | Some (i, found) => Some (S i, found)
           | None => None
           end
  end.

(** ** Value binder *)

Definition setFlagValue (flag : Flag) (value arg : string)
  : option ParserError * Flag :=
  match body flag with
  | NumberFlag o _ =>
      let number := JsNum.Number value in
      let flag' := withBody flag (NumberFlag o (Some number)) in
      if JsNum.isNaN number
      then (Some (newParserError NOT_A_NUMBER arg None), flag')
      else (None, flag')
  | StringFlag o _ =>
      let flag' := withBody flag (StringFlag o (Some value)) in
      match oneOf o with
      | Some allowed =>
          if negb (existsb (String.eqb value) allowed)
          then (Some (newParserError NOT_ONE_OF arg
                        (Some (stringify (VArray (map VString allowed))))),
                flag')
          else (None, flag')
      | None => (None, flag')
      end
  | BooleanFlag _ _ =>
      (Some (newParserError UNEXPECTED_ARG arg None), flag)
  end.

(** ** Short and long flag handlers *)

(** What a handler returns: an error (or [null]) or the index at which
    the scan continues. *)
Inductive Outcome : Type :=
| Err (error : option ParserError)
| Idx (i : nat).

(** [error ?? i]. *)
Definition orIndex (error : option ParserError) (i : nat) : Outcome :=
  match error with
  | Some _ => Err error
  | None => Idx i
  end.

Definition hasShort (miniflag : string) (flag : Flag) : bool :=
  match short flag with
  | Some s => String.eqb s miniflag
  | None => false
  end.

(** [args[argPos + 1] && parseArgType(args[argPos + 1]) === POSITIONAL];
    the omitted [forceEnd] is falsy. *)
Definition nextPositional (args : list string) (argPos : nat)
  : option string :=
  match args !! (argPos + 1) with
  | Some next =>
      if JsString.truthy next && isPositional (parseArgType next false)
      then Some next
      else None
  | None => None
  end.

(** The loop of [parseShortFlag]: [rest] is [arg.slice(i)], so its head
    is [miniflag] and its tail is [value]. *)
Fixpoint shortLoop (argPos : nat) (args : list string) (arg rest : string)
  (error : option ParserError) (flags : list Flag)
  : Outcome * list Flag :=
  match rest with
  | EmptyString => (orIndex error argPos, flags)
  | String c value =>
      let miniflag := String c EmptyString in
      match findFlag (hasShort miniflag) flags with
      | None =>
          shortLoop argPos args arg value
            (setError error
               (Some (newParserError UNRECOGNIZED_FLAG miniflag None)))
            flags
      | Some (at_, validFlag) =>
          match body validFlag with
          | BooleanFlag o _ =>
              shortLoop argPos args arg value error
                (<[at_ := withBody validFlag (BooleanFlag o (Some true))]>
                   flags)
          | _ =>
              if JsString.truthy value then
                let '(newError, flag') :=
                  setFlagValue validFlag value miniflag in
                (Err (setError error newError), <[at_ := flag']> flags)
              else
                match body validFlag, definedArgOptional validFlag with
                | StringFlag o _, Some dflt =>
                    shortLoop argPos args arg value error
                      (<[at_ := withBody validFlag
                                  (StringFlag o (Some dflt))]> flags)
                | _, _ =>
                    match nextPositional args argPos with
                    | Some next =>
                        let '(newError, flag') :=
                          setFlagValue validFlag next miniflag in
                        (orIndex (setError error newError) (argPos + 1),
                         <[at_ := flag']> flags)
                    | None =>
                        (Err (Some (newParserError MISSING_ARG arg None)),
                         flags)
                    end
                end
          end
      end
  end.

(** Reading [args[argPos]] outside the array gives [undefined], and the
    call of [slice] on it throws: [None]. *)
Definition parseShortFlag (argPos : nat) (args : list string)
  (flags : list Flag) : option (Outcome * list Flag) :=
  match args !! argPos with
  | None => None
  | Some token =>
      let arg := JsString.slice 1 token in
      Some (shortLoop argPos args arg arg None flags)
  end.

Definition isInverted (flagLong arg : string) : bool :=
  (JsString.startsWith "no-" flagLong
   && String.eqb arg (JsString.slice 3 flagLong))
  || (JsString.startsWith "no-" arg
      && String.eqb flagLong (JsString.slice 3 arg)).

(** The callback of the second [find] of [parseLongFlag]. *)
Definition matchesLong (arg : string) (flag : Flag) : bool :=
  isInverted (long flag) arg || String.eqb (long flag) arg.

(** The value an inverted flag is reset to. *)
Definition invertedBody (b : FlagBody) : FlagBody :=
  match b with
  | BooleanFlag o _ => BooleanFlag o (Some false)
  | StringFlag o _ => StringFlag o (Some EmptyString)
  | NumberFlag o _ => NumberFlag o (Some (JsNum.ofZ 0))
  end.

(** The part of [parseLongFlag] after [argv[++i]] has been read for a
    string or number flag matched by its own name. *)
Definition longValue (i : nat) (argv : list string) (arg : string)
  (at_ : nat) (validFlag : Flag) (flags : list Flag)
  : Outcome * list Flag :=
  let missing :=
    match body validFlag, definedArgOptional validFlag with
    | StringFlag o _, Some dflt =>
        (Idx i, <[at_ := withBody validFlag (StringFlag o (Some dflt))]> flags)
    | _, _ => (Err (Some (newParserError MISSING_ARG arg None)), flags)
    end in
  match argv !! i with
  | Some argValue =>
      if negb (JsString.truthy argValue)
         || negb (isPositional (parseArgType argValue false))
      then missing
      else
        let '(newError, flag') := setFlagValue validFlag argValue arg in
        (orIndex newError i, <[at_ := flag']> flags)
  | None => missing
  end.

Definition parseLongFlag (i : nat) (argv : list string) (flags : list Flag)
  : option (Outcome * list Flag) :=
  match argv !! i with
  | None => None
  | Some token =>
      let arg := JsString.slice 2 token in
      Some
        match JsString.indexOf "=" arg with
        | Some eqIndex =>
            let argKey := JsString.sliceTo eqIndex arg in
            match findFlag (fun flag => String.eqb (long flag) argKey) flags with
            | None =>
                (Err (Some (newParserError UNRECOGNIZED_FLAG argKey None)),
                 flags)
            | Some (at_, validFlag) =>
                let argValue := JsString.slice (eqIndex + 1) arg in
                if negb (JsString.truthy argValue)
                then (Err (Some (newParserError MISSING_ARG argKey None)),
                      flags)
                else
                  let '(newError, flag') :=
                    setFlagValue validFlag argValue argKey in
                  (orIndex newError i, <[at_ := flag']> flags)
            end
        | None =>
            match findFlag (matchesLong arg) flags with
            | None =>
                (Err (Some (newParserError UNRECOGNIZED_FLAG arg None)),
                 flags)
            | Some (at_, validFlag) =>
                (* [inverted] is set by the callback exactly when it
                   accepts the descriptor through [isInverted] *)
                let inverted := isInverted (long validFlag) arg in
                if inverted then
                  if negb (isTrue (invertable validFlag))
                  then (Err (Some (newParserError NOT_INVERTABLE
                                     (long validFlag) None)),
                        flags)
                  else (Idx i,
                        <[at_ := withBody validFlag
                                   (invertedBody (body validFlag))]> flags)
                else
                  match body validFlag with
                  | BooleanFlag o _ =>
                      (Idx i,
                       <[at_ := withBody validFlag
                                  (BooleanFlag o (Some true))]> flags)
                  | _ => longValue (i + 1) argv arg at_ validFlag flags
                  end
            end
        end
  end.

(** ** Parse driver *)

(** The registry handed to [parse]: descriptors mixed with section
    headers. *)
Inductive RegistryEntry : Type :=
| Header (title : string)
| Descriptor (flag : Flag).

(** [flags.filter((flag) => typeof flag !== "string")]. *)
Fixpoint filterFlags (entries : list RegistryEntry) : list Flag :=
  match entries with
  | [] => []
  | Header _ :: rest => filterFlags rest
  | Descriptor flag :: rest => flag :: filterFlags rest
  end.

(** The variables of the scan loop of [parse]. *)
Record ScanState : Type := mkScan
  { pos : nat;
    error : option ParserError;
    forceFlagEnd : bool;
    restArgv : list string;
    realFlags : list Flag }.

(** What a handler's return value does to the scan: a number moves the
    index, anything else is merged into the error. *)
Definition dispatch (st : ScanState) (r : Outcome * list Flag) : ScanState :=
  match r with
  | (Idx i, flags) =>
      mkScan i (error st) (forceFlagEnd st) (restArgv st) flags
  | (Err e, flags) =>
      mkScan (pos st) (setError (error st) e) (forceFlagEnd st)
        (restArgv st) flags
  end.

(** The body of the scan loop for the token [arg = argv[i]], without the
    final [i++]. *)
Definition scanBody (argv : list string) (st : ScanState) (arg : string)
  : option ScanState :=
  match parseArgType arg (forceFlagEnd st) with
  | FORCE_FLAG_END =>
      Some (mkScan (pos st) (error st) true (restArgv st) (realFlags st))
  | POSITIONAL =>
      Some (mkScan (pos st) (error st) (forceFlagEnd st)
              (restArgv st ++ [arg]) (realFlags st))
  | FLAG_SHORT =>
      match parseShortFlag (pos st) argv (realFlags st) with
      | Some r => Some (dispatch st r)
      | None => None
      end
  | FLAG_LONG =>
      match parseLongFlag (pos st) argv (realFlags st) with
      | Some r => Some (dispatch st r)
      | None => None
      end
  end.

(** [i++]. *)
Definition advance (st : ScanState) : ScanState :=
  mkScan (S (pos st)) (error st) (forceFlagEnd st) (restArgv st)
    (realFlags st).

(** One iteration of the scan loop, when the guard [i < argv.length]
    holds. *)
Definition scanStep (argv : list string) (st : ScanState)
  : option ScanState :=
  match argv !! pos st with
  | Some arg =>
      match scanBody argv st arg with
      | Some st' => Some (advance st')
      | None => None
      end
  | None => None
  end.

(** The scan loop.  [None] is a thrown exception or an exhausted [fuel];
    [scanLoop_total] shows that neither happens from [parse]. *)
Fixpoint scanLoop (fuel : nat) (argv : list string) (st : ScanState)
  : option ScanState :=
  match argv !! pos st with
  | None => Some st
  | Some _ =>
      match fuel with
      | O => None
      | S fuel' =>
          match scanStep argv st with
          | Some st' => scanLoop fuel' argv st'
          | None => None
          end
      end
  end.

Definition scanStart (flags : list Flag) : ScanState :=
  mkScan 0 None false [] flags.

Definition scan (argv : list string) (flags : list Flag)
  : option ScanState :=
  scanLoop (length argv) argv (scanStart flags).

(** ["urgent" in flag && flag.urgent && flag.current]. *)
Definition urgentHit (flag : Flag) : bool :=
  match body flag with
  | BooleanFlag o current => isTrue (urgent o) && isTrue current
  | _ => false
  end.

(** The required and default checks of one descriptor. *)
Definition postCheck (flag : Flag) (error : option ParserError)
  : option ParserError * Flag :=
  match body flag with
  | NumberFlag o None =>
      if isTrue (numberRequired o)
      then (setError error
              (Some (newParserError MISSING_REQUIRED (long flag) None)),
            flag)
      else match numberDefault o with
           | Some d => (error, withBody flag (NumberFlag o (Some d)))
           | None => (error, flag)
           end
  | StringFlag o None =>
      if isTrue (stringRequired o)
      then (setError error
              (Some (newParserError MISSING_REQUIRED (long flag) None)),
            flag)
      else match stringDefault o with
           | Some d => (error, withBody flag (StringFlag o (Some d)))
           | None => (error, flag)
           end
  | _ => (error, flag)
  end.

(** How the loop over the descriptors ends: by the [return null] of an
    urgent flag, or by running to its end. *)
Inductive PostOutcome : Type :=
| Urgent (flags : list Flag)
| Checked (error : option ParserError) (flags : list Flag).

Fixpoint postLoop (flags : list Flag) (error : option ParserError)
  : PostOutcome :=
  match flags with
  | [] => Checked error []
  | flag :: rest =>
      if urgentHit flag then Urgent (flag :: rest)
      else
        let '(error', flag') := postCheck flag error in
        match postLoop rest error' with
        | Urgent rest' => Urgent (flag' :: rest')
        | Checked e rest' => Checked e (flag' :: rest')
        end
  end.

(** What the caller observes after [parse]: the returned value, the
    argument array and the descriptors. *)
Record ParseResult : Type := mkResult
  { returned : option string;
    argvAfter : list string;
    flagsAfter : list Flag }.

Definition finish (argv : list string) (st : ScanState) : ParseResult :=
  match postLoop (realFlags st) (error st) with
  | Urgent flags => mkResult None argv flags
  | Checked e flags =>
      (* argv.splice(0, argv.length, ...restArgv) *)
      mkResult
        match e with
        | Some err => Some (message err)
        | None => None
        end
        (restArgv st) flags
  end.

Definition parse (argv : list string) (flags : list RegistryEntry)
  : option ParseResult :=
  match scan argv (filterFlags flags) with
  | Some st => Some (finish argv st)
  | None => None
  end.

(** ** The registry of [example/example.js] *)

Module ExampleProgram.

Definition help : Flag :=
  boolean "help" "Print this help information and exit."
    (Some "h") None {| urgent := Some true |}.

Definition version : Flag :=
  boolean "version" "Print version information and exit."
    (Some "V") None {| urgent := Some true |}.

Definition verbose : Flag :=
  boolean "verbose" "Print extra debugging information."
    (Some "v") (Some true) {| urgent := None |}.

Definition count : Flag :=
  number "count" "The amount of times to greet the user."
    (Some "c") None
    {| numberDefault := Some (JsNum.ofZ 1);
       numberArgName := Some "amount";
       numberRequired := None |}.

Definition color : Flag :=
  string_ "color" "Use colors when greeting."
    None (Some true)
    {| stringDefault := Some "auto";
       argOptional := Some "always";
       stringArgName := Some "when";
       oneOf := Some ["always"; "never"; "auto"];
       stringRequired := None |}.

Definition prefix : Flag :=
  string_ "prefix" "Prefix the greeting (with something)."
    (Some "p") None
    {| stringDefault := None;
       argOptional := Some "Hello";
       stringArgName := Some "greeting";
       oneOf := None;
       stringRequired := None |}.

Definition age : Flag :=
  number "age" "The age of the user, in years."
    (Some "a") None
    {| numberDefault := None;
       numberArgName := Some "years";
       numberRequired := Some true |}.

Definition lastName : Flag :=
  string_ "last-name" "The last name of the user."
    None None
    {| stringDefault := None;
       argOptional := None;
       stringArgName := Some "name";
       oneOf := None;
       stringRequired := Some true |}.

Definition flags : list RegistryEntry :=
  [ Descriptor help; Descriptor version; Descriptor verbose;
    Header "Customization options";
    Descriptor count; Descriptor color; Descriptor prefix;
    Header "User details";
    Descriptor age; Descriptor lastName ].

End ExampleProgram.


Definition currentNumber (flag : Flag) : option JsNumber :=
  match body flag with
  | NumberFlag _ c => c
  | _ => None
  end.

Definition currentString (flag : Flag) : option string :=
  match body flag with
  | StringFlag _ c => c
  | _ => None
  end.

(** ** Auxiliary notions used in the statements *)

(** The priority of an optional error; no error ranks below every kind. *)
Definition rank (e : option ParserError) : Z :=
  match e with
  | Some err => kindValue (kind err)
  | None => 0
  end.

(** The descriptor after a value of its kind has been stored: the
    kind-specific conversion of [value] in the [current] slot. *)
Definition bound (flag : Flag) (value : string) : Flag :=
  match body flag with
  | NumberFlag o _ => withBody flag (NumberFlag o (Some (JsNum.Number value)))
  | StringFlag o _ => withBody flag (StringFlag o (Some value))
  | BooleanFlag _ _ => flag
  end.

(** The descriptor after its required and default checks; the error
    handed to [postCheck] does not enter it. *)
Definition defaulted (flag : Flag) : Flag := snd (postCheck flag None).

(** What the scan keeps true of the positional arguments: they are a
    subsequence of the tokens scanned so far, and each of them is
    POSITIONAL by itself unless the end-of-flags marker occurs. *)
Definition restInvariant (argv : list string) (st : ScanState) : Prop :=
  restArgv st `sublist_of` take (pos st) argv
  /\ (forceFlagEnd st = true -> In "--"%string argv)
  /\ Forall (fun a => parseArgType a false = POSITIONAL
                      \/ In "--"%string argv) (restArgv st).

(** ** Descriptors used in the worked cases *)

Definition modeFlag : Flag :=
  string_ "mode" "The mode." (Some "m") None
    {| stringDefault := None;
       argOptional := None;
       stringArgName := None;
       oneOf := Some ["a"; "b"];
       stringRequired := None |}.

(** A boolean flag [-a] and a required string flag [-b] without
    [argOptional]. *)
Definition alphaFlag : Flag :=
  boolean "alpha" "A switch." (Some "a") None {| urgent := None |}.

Definition betaFlag : Flag :=
  string_ "beta" "A required text." (Some "b") None
    {| stringDefault := None;
       argOptional := None;
       stringArgName := None;
       oneOf := None;
       stringRequired := Some true |}.

(** ** Help renderer *)

Definition INFO_FLAG_WIDTH : nat := 26.

Definition newline : string := String (ascii_of_nat 10) EmptyString.

(** [" ".repeat(n)] for a count that is a natural number. *)
Fixpoint spaces (n : nat) : string :=
  match n with
  | O => EmptyString
  | S n' => String " " (spaces n')
  end.

(** [" ".repeat(count)] for a number: the count is truncated to an
    integer, NaN counts as [0], and a negative or infinite count throws a
    RangeError, which is [None]. *)
Definition repeatSpaces (count : JsNumber) : option string :=
  match count with
  | NaN => Some EmptyString
  | Infinity _ => None
  | Finite q =>
      let n := Z.quot (Qnum q) (Zpos (Qden q)) in
      if (n <? 0)%Z then None else Some (spaces (Z.to_nat n))
  end.

(** Truthiness of a number: zero and NaN are falsy. *)
Definition truthyNumber (n : JsNumber) : bool :=
  match n with
  | NaN => false
  | Infinity _ => true
  | Finite q => negb (Qeq_bool q 0)
  end.

(** [realFlag.argName], for the kinds that have one. *)
Definition argNameOf (flag : Flag) : option string :=
  match body flag with
  | BooleanFlag _ _ => None
  | NumberFlag o _ => numberArgName o
  | StringFlag o _ => stringArgName o
  end.

(** The first part of the line of a descriptor in [flagInfo]: the short
    and long names and the name of the argument. *)
Definition flagHead (realFlag : Flag) : string :=
  let argOptional :=
    match definedArgOptional realFlag with
    | Some _ => true
    | None => false
    end in
  let line := ("--" ++ long realFlag)%string in
  let line :=
    match short realFlag with
    | Some s =>
        if JsString.truthy s then ("-" ++ s ++ ", " ++ line)%string else line
    | None => line
    end in
  match body realFlag with
  | BooleanFlag _ _ => line
  | _ =>
      let argName :=
        match argNameOf realFlag with
        | Some name => name
        | None => "arg"
        end in
      (line ++ if argOptional
               then "[=<" ++ argName ++ ">]"
               else " <" ++ argName ++ ">")%string
  end.

(** What follows the first part: the padding to the description column,
    or a line break and the full indentation when the first part is too
    long. *)
Definition flagPad (prefix line : string) : string :=
  if INFO_FLAG_WIDTH - 1 <=? String.length line
  then (newline ++ prefix ++ spaces INFO_FLAG_WIDTH)%string
  else spaces (INFO_FLAG_WIDTH - String.length line).

(** The options object of [info]: its [prefix] is undefined, a string or a
    number. *)
Inductive PrefixOption : Type :=
| PrefixUndefined
| PrefixString (s : string)
| PrefixNumber (n : JsNumber).

(** The caller's registry after [parse]: it holds the descriptor objects
    that [parse] mutated, in their places among the headers. *)
Fixpoint refresh (entries : list RegistryEntry) (flags : list Flag)
  : list RegistryEntry :=
  match entries with
  | [] => []
  | Header title :: rest => Header title :: refresh rest flags
  | Descriptor flag :: rest =>
      match flags with
      | flag' :: flags' => Descriptor flag' :: refresh rest flags'
      | [] => Descriptor flag :: refresh rest []
      end
  end.

Section HelpRenderer.

(** The host's conversion of a number to a string, used by template
    literals. *)
Variable numberToString : JsNumber -> string.

(** The text of the [(Default: ...)] note, when there is one: the value of
    [argOptional] when it is defined, else a truthy [default]. *)
Definition defaultNote (realFlag : Flag) : option string :=
  match body realFlag with
  | BooleanFlag _ _ => None
  | NumberFlag o _ =>
      match numberDefault o with
      | Some d => if truthyNumber d then Some (numberToString d) else None
      | None => None
      end
  | StringFlag o _ =>
      match argOptional o with
      | Some a => Some a
      | None =>
          match stringDefault o with
          | Some d => if JsString.truthy d then Some d else None
          | None => None
          end
      end
  end.

Definition flagInfo (flag : RegistryEntry) (prefix : string) : string :=
  let widthString := (prefix ++ spaces INFO_FLAG_WIDTH)%string in
  match flag with
  | Header title => (newline ++ title)%string
  | Descriptor realFlag =>
      let argOptional :=
        match definedArgOptional realFlag with
        | Some _ => true
        | None => false
        end in
      let line := flagHead realFlag in
      let line := (line ++ flagPad prefix line)%string in
      let line := (line ++ description realFlag)%string in
      let line :=
        match body realFlag with
        | StringFlag o _ =>
            match oneOf o with
            | Some allowed =>
                (line ++ newline ++ widthString
                 ++ (if argOptional then "Optional m" else "M") ++ "odes: "
                 ++ stringify (VArray (map VString allowed)))%string
            | None => line
            end
        | _ => line
        end in
      let line :=
        match defaultNote realFlag with
        | Some text => (line ++ " (Default: " ++ text ++ ")")%string
        | None => line
        end in
      (prefix ++ line)%string
  end.

Definition info (flags : list RegistryEntry) (options : PrefixOption)
  : option string :=
  let prefix :=
    match options with
    | PrefixNumber n => repeatSpaces n
    | PrefixString s => Some s
    | PrefixUndefined => Some EmptyString
    end in
  match prefix with
  | Some p => Some (JsString.join newline (map (fun flag => flagInfo flag p) flags))
  | None => None
  end.

End HelpRenderer.

(** ** Notions used in the statements about the whole registry *)

(** Two bodies of the same kind with the same options: they differ at
    most in the current value. *)
Definition sameOptions (b1 b2 : FlagBody) : Prop :=
  match b1, b2 with
  | BooleanFlag o1 _, BooleanFlag o2 _ => o1 = o2
  | NumberFlag o1 _, NumberFlag o2 _ => o1 = o2
  | StringFlag o1 _, StringFlag o2 _ => o1 = o2
  | _, _ => False
  end.

(** Two states of one descriptor: everything but the current value is
    the same. *)
Definition sameDescriptor (f g : Flag) : Prop :=
  long f = long g
  /\ description f = description g
  /\ short f = short g
  /\ invertable f = invertable g
  /\ sameOptions (body f) (body g).

(** A descriptor that the checks after the scan report as missing. *)
Definition unsetRequired (flag : Flag) : bool :=
  match body flag with
  | NumberFlag o None => isTrue (numberRequired o)
  | StringFlag o None => isTrue (stringRequired o)
  | _ => false
  end.

(** The first character of a bundle that is the short name of no
    descriptor. *)
Fixpoint firstUnknown (flags : list Flag) (rest : string) : option ascii :=
  match rest with
  | EmptyString => None
  | String c value =>
      match findFlag (hasShort (String c EmptyString)) flags with
      | None => Some c
      | Some _ => firstUnknown flags value
      end
  end.

(** Every character of a bundle that names a descriptor names a boolean
    one. *)
Fixpoint onlyBooleans (flags : list Flag) (rest : string) : bool :=
  match rest with
  | EmptyString => true
  | String c value =>
      match findFlag (hasShort (String c EmptyString)) flags with
      | None => true
      | Some (_, flag) => isBoolean flag
      end && onlyBooleans flags value
  end.

(** The column at which the text after [s] starts, when [s] is written
    from column [start]: the number of characters after the last line
    break. *)
Fixpoint columnFrom (start : nat) (s : string) : nat :=
  match s with
  | EmptyString => start
  | String c r =>
      if Ascii.eqb c (ascii_of_nat 10) then columnFrom 0 r
      else columnFrom (S start) r
  end.

Definition column (s : string) : nat := columnFrom 0 s.

Definition hasNewline (s : string) : bool :=
  JsString.existsChar (fun c => Ascii.eqb c (ascii_of_nat 10)) s.

(** A boolean descriptor with its current value set to [true]; other
    descriptors as they are. *)
Definition setTrue (flag : Flag) : Flag :=
  match body flag with
  | BooleanFlag o _ => withBody flag (BooleanFlag o (Some true))
  | _ => flag
  end.

(** Whether some character of the bundle is the short name under which
    [find] returns the descriptor at position [k]. *)
Fixpoint namedBy (flags : list Flag) (rest : string) (k : nat) : bool :=
  match rest with
  | EmptyString => false
  | String c value =>
      match findFlag (hasShort (String c EmptyString)) flags with
      | Some (j, _) => Nat.eqb j k
      | None => false
      end || namedBy flags value k
  end.

(** A string or number descriptor that is unset keeps neither a default
    nor a requirement. *)
Definition settled (flag : Flag) : Prop :=
  match body flag with
  | NumberFlag o None =>
      numberDefault o = None /\ isTrue (numberRequired o) = false
  | StringFlag o None =>
      stringDefault o = None /\ isTrue (stringRequired o) = false
  | _ => True
  end.

(** * Properties *)

(** ** Host conversions on sample inputs *)

Example Number_3 : JsNum.Number "3" = JsNum.ofZ 3.
Proof. reflexivity. Qed.

Example Number_frac : JsNum.Number " -12.50e1 " = JsNum.ofZ (-125).
Proof. reflexivity. Qed.

Example Number_hex : JsNum.Number "0x1F" = JsNum.ofZ 31.
Proof. reflexivity. Qed.

Example Number_abc : JsNum.Number "abc" = NaN.
Proof. reflexivity. Qed.

Example Number_dot : JsNum.Number "." = NaN.
Proof. reflexivity. Qed.

Example Number_half : JsNum.Number ".5" = Finite (1 # 2).
Proof. reflexivity. Qed.

Example Number_empty : JsNum.Number EmptyString = JsNum.ofZ 0.
Proof. reflexivity. Qed.

Example Number_Infinity : JsNum.Number "-Infinity" = Infinity true.
Proof. reflexivity. Qed.

Example Number_trailing : JsNum.Number "12px" = NaN.
Proof. reflexivity. Qed.

Example stringify_array :
  stringify (VArray [VString "always"; VString "a b"; VNull])
  = ("always, " ++ doubleQuote ++ "a b" ++ doubleQuote ++ ", N/A")%string.
Proof. reflexivity. Qed.

(** ** The classifier *)

Lemma parseArgType_forced (arg : string) : parseArgType arg true = POSITIONAL.
Proof. reflexivity. Qed.

Lemma parseArgType_dash : parseArgType "-" false = FLAG_SHORT.
Proof. reflexivity. Qed.

Lemma parseArgType_empty : parseArgType EmptyString false = POSITIONAL.
Proof. reflexivity. Qed.

(** ** [find] *)

Lemma findFlag_Some (p : Flag -> bool) (flags : list Flag) (k : nat)
  (f : Flag) :
  findFlag p flags = Some (k, f) ->
  flags !! k = Some f /\ p f = true
  /\ forall j g, j < k -> flags !! j = Some g -> p g = false.
Proof.
  revert k. induction flags as [|g flags IH]; intros k; simpl.
  - discriminate.
  - destruct (p g) eqn:Hg.
    + intros [= <- <-]. repeat split; auto. intros j g' Hj. lia.
    + destruct (findFlag p flags) as [[i found]|] eqn:Hfind; [|discriminate].
      intros [= <- <-]. destruct (IH i eq_refl) as (Hat & Hp & Hbefore).
      repeat split; auto.
      intros [|j] g' Hj Hlook; simpl in Hlook.
      * congruence.
      * apply (Hbefore j); [lia|exact Hlook].
Qed.

Lemma findFlag_first (p : Flag -> bool) (flags : list Flag) (k : nat)
  (f : Flag) :
  flags !! k = Some f ->
  p f = true ->
  (forall j g, j < k -> flags !! j = Some g -> p g = false) ->
  findFlag p flags = Some (k, f).
Proof.
  revert k. induction flags as [|g flags IH]; intros k Hat Hp Hbefore.
  - discriminate.
  - destruct k as [|k]; simpl in *.
    + injection Hat as ->. now rewrite Hp.
    + rewrite (Hbefore 0 g) by (lia || reflexivity).
      rewrite (IH k Hat Hp); [reflexivity|].
      intros j g' Hj Hlook. apply (Hbefore (S j)); [lia|exact Hlook].
Qed.

Lemma findFlag_None (p : Flag -> bool) (flags : list Flag) :
  findFlag p flags = None <-> forallb (fun f => negb (p f)) flags = true.
Proof.
  induction flags as [|g flags IH]; simpl.
  - tauto.
  - destruct (p g); simpl.
    + split; discriminate.
    + destruct (findFlag p flags) as [[i found]|].
      * rewrite <- IH. split; discriminate.
      * tauto.
Qed.

(** ** The error merge *)

Lemma setError_None_r (e : option ParserError) : setError e None = e.
Proof. reflexivity. Qed.

Lemma setError_None_l (e : option ParserError) : setError None e = e.
Proof. now destruct e. Qed.

Lemma kindValue_pos (k : ErrorKind) : (0 < kindValue k)%Z.
Proof. destruct k; reflexivity. Qed.

Lemma kindValue_inj (k1 k2 : ErrorKind) :
  kindValue k1 = kindValue k2 -> k1 = k2.
Proof. destruct k1, k2; simpl; intros H; congruence || discriminate. Qed.

(** [setError] returns one of its arguments: the new error when it ranks
    strictly higher, the old one otherwise. *)
Lemma setError_cases (e n : option ParserError) :
  (setError e n = n /\ (rank e < rank n)%Z)
  \/ (setError e n = e /\ (rank n <= rank e)%Z).
Proof.
  destruct n as [n|], e as [e|]; simpl.
  - destruct (Z.gtb_spec (kindValue (kind n)) (kindValue (kind e)));
      [left|right]; split; auto; lia.
  - left. split; auto. apply kindValue_pos.
  - right. split; auto. pose proof (kindValue_pos (kind e)). lia.
  - right. split; auto. lia.
Qed.

Lemma setError_rank (e n : option ParserError) :
  rank (setError e n) = Z.max (rank e) (rank n).
Proof. destruct (setError_cases e n) as [[-> H]|[-> H]]; lia. Qed.

(** X1.  Merging a sequence of errors with [setError], from no error,
    keeps the first one of maximal kind: every error before it has a
    strictly smaller kind and none after it has a greater one. *)
Lemma setError_fold_first_max (es : list ParserError) (e : ParserError) :
  fold_left setError (map Some es) None = Some e <->
  exists before after,
    es = before ++ e :: after
    /\ Forall (fun x => (kindValue (kind x) < kindValue (kind e))%Z) before
    /\ Forall (fun x => (kindValue (kind x) <= kindValue (kind e))%Z) after.
Proof.
  assert (Hgen : forall es acc e,
    fold_left setError (map Some es) acc = Some e <->
    (acc = Some e
     /\ Forall (fun x => (kindValue (kind x) <= kindValue (kind e))%Z) es)
    \/ exists before after,
        es = before ++ e :: after
        /\ (rank acc < kindValue (kind e))%Z
        /\ Forall (fun x => (kindValue (kind x) < kindValue (kind e))%Z) before
        /\ Forall (fun x => (kindValue (kind x) <= kindValue (kind e))%Z) after).
  { clear. induction es as [|x es IH]; intros acc e; cbn [fold_left map].
    - split.
      + intros ->. left. split; auto.
      + intros [[-> _]|(before & after & H & _)]; auto.
        destruct before; discriminate.
    - rewrite IH. clear IH.
      destruct (setError_cases acc (Some x)) as [[-> Hlt]|[-> Hle]];
        cbn [rank] in *.
      + split.
        * intros [[[= ->] Hall]|(before & after & -> & Hr & Hb & Ha)].
          -- right. exists [], es. simpl. repeat split; auto.
          -- right. exists (x :: before), after. simpl.
             repeat split; auto; try lia.
        * intros [[-> Hall]|(before & after & Heq & Hr & Hb & Ha)].
          -- simpl in Hlt. inversion Hall; subst. lia.
          -- destruct before as [|y before]; simpl in Heq;
               injection Heq as -> ->.
             ++ left. split; auto.
             ++ right. exists before, after. inversion Hb; subst.
                repeat split; auto.
      + split.
        * intros [[-> Hall]|(before & after & -> & Hr & Hb & Ha)].
          -- left. split; auto.
          -- right. exists (x :: before), after. simpl.
             repeat split; auto; try lia; try (constructor; auto; lia).
        * intros [[-> Hall]|(before & after & Heq & Hr & Hb & Ha)].
          -- left. inversion Hall; subst. split; auto.
          -- destruct before as [|y before]; simpl in Heq;
               injection Heq as -> ->.
             ++ lia.
             ++ right. exists before, after. inversion Hb; subst.
                repeat split; auto. }
  rewrite Hgen. split.
  - intros [[H _]|(before & after & H1 & _ & H2 & H3)]; [discriminate|].
    exists before, after. auto.
  - intros (before & after & H1 & H2 & H3). right.
    exists before, after. repeat split; auto. simpl. apply kindValue_pos.
Qed.

(** ** The handlers move the index forward by at most one *)

Lemma orIndex_Idx (e : option ParserError) (i j : nat) :
  orIndex e i = Idx j -> j = i /\ e = None.
Proof. destruct e; simpl; [discriminate|]. now intros [= ->]. Qed.

Lemma shortLoop_Idx (argPos : nat) (args : list string) (arg rest : string)
  (error : option ParserError) (flags flags' : list Flag) (j : nat) :
  shortLoop argPos args arg rest error flags = (Idx j, flags') ->
  j = argPos \/ j = argPos + 1.
Proof.
  revert error flags.
  induction rest as [|c value IH]; intros error flags; simpl.
  - intros [= H _]. apply orIndex_Idx in H. tauto.
  - destruct (findFlag _ flags) as [[at_ validFlag]|]; [|apply IH].
    destruct (body validFlag) as [o cur|o cur|o cur] eqn:Hbody;
      [apply IH| |].
    + destruct (JsString.truthy value).
      * destruct (setFlagValue _ _ _). discriminate.
      * destruct (nextPositional args argPos).
        -- destruct (setFlagValue _ _ _). intros [= H _].
           apply orIndex_Idx in H. tauto.
        -- discriminate.
    + destruct (JsString.truthy value).
      * destruct (setFlagValue _ _ _). discriminate.
      * unfold definedArgOptional. rewrite Hbody.
        destruct (argOptional o); [apply IH|].
        destruct (nextPositional args argPos).
        -- destruct (setFlagValue _ _ _). intros [= H _].
           apply orIndex_Idx in H. tauto.
        -- discriminate.
Qed.

Lemma longValue_Idx (i : nat) (argv : list string) (arg : string)
  (at_ : nat) (f : Flag) (flags flags' : list Flag) (j : nat) :
  longValue i argv arg at_ f flags = (Idx j, flags') -> j = i.
Proof.
  unfold longValue.
  assert (Hmissing :
    match body f, definedArgOptional f with
    | StringFlag o _, Some dflt =>
        (Idx i, <[at_ := withBody f (StringFlag o (Some dflt))]> flags)
    | _, _ => (Err (Some (newParserError MISSING_ARG arg None)), flags)
    end = (Idx j, flags') -> j = i).
  { destruct (body f); try discriminate.
    destruct (definedArgOptional f); [|discriminate]. now intros [= ->]. }
  destruct (argv !! i) as [argValue|]; [|exact Hmissing].
  destruct (_ || _); [exact Hmissing|].
  destruct (setFlagValue _ _ _). intros [= H _].
  apply orIndex_Idx in H. tauto.
Qed.

Lemma parseLongFlag_Idx (i : nat) (argv : list string)
  (flags flags' : list Flag) (j : nat) :
  parseLongFlag i argv flags = Some (Idx j, flags') ->
  j = i \/ j = i + 1.
Proof.
  unfold parseLongFlag. destruct (argv !! i) as [token|]; [|discriminate].
  intros [= H]. revert H.
  destruct (JsString.indexOf _ _) as [eqIndex|].
  - destruct (findFlag _ flags) as [[at_ validFlag]|]; [|discriminate].
    destruct (negb _); [discriminate|].
    destruct (setFlagValue _ _ _). intros [= H _].
    apply orIndex_Idx in H. tauto.
  - destruct (findFlag _ flags) as [[at_ validFlag]|]; [|discriminate].
    destruct (isInverted _ _).
    + destruct (negb _); [discriminate|]. intros [= -> _]. tauto.
    + destruct (body validFlag).
      * intros [= -> _]. tauto.
      * intros H. apply longValue_Idx in H. tauto.
      * intros H. apply longValue_Idx in H. tauto.
Qed.

(** ** The scan terminates and never throws *)

Lemma dispatch_pos (st : ScanState) (r : Outcome * list Flag) :
  (forall j flags', r = (Idx j, flags') -> j = pos st \/ j = pos st + 1) ->
  pos (dispatch st r) = pos st \/ pos (dispatch st r) = pos st + 1.
Proof.
  destruct r as [[e|j] flags']; simpl; [tauto|].
  intros H. apply (H j flags' eq_refl).
Qed.

Lemma scanBody_pos (argv : list string) (st st' : ScanState) (arg : string) :
  scanBody argv st arg = Some st' ->
  pos st' = pos st \/ pos st' = pos st + 1.
Proof.
  unfold scanBody. destruct (parseArgType arg (forceFlagEnd st)).
  - destruct (parseLongFlag _ _ _) as [r|] eqn:Hr; [|discriminate].
    intros [= <-]. apply dispatch_pos. intros j flags' ->.
    exact (parseLongFlag_Idx _ _ _ _ _ Hr).
  - unfold parseShortFlag.
    destruct (argv !! pos st) as [token|]; [|discriminate].
    intros [= <-]. apply dispatch_pos. intros j flags' H.
    exact (shortLoop_Idx _ _ _ _ _ _ _ _ H).
  - intros [= <-]. now left.
  - intros [= <-]. now left.
Qed.

Lemma scanStep_pos (argv : list string) (st st' : ScanState) :
  scanStep argv st = Some st' ->
  pos st' = pos st + 1 \/ pos st' = pos st + 2.
Proof.
  unfold scanStep. destruct (argv !! pos st) as [arg|]; [|discriminate].
  destruct (scanBody argv st arg) as [st1|] eqn:Hbody; [|discriminate].
  intros [= <-]. apply scanBody_pos in Hbody. simpl. lia.
Qed.

Lemma scanStep_total (argv : list string) (st : ScanState) (arg : string) :
  argv !! pos st = Some arg ->
  exists st', scanStep argv st = Some st'.
Proof.
  intros Harg. unfold scanStep, scanBody. rewrite Harg.
  destruct (parseArgType arg (forceFlagEnd st)); eauto.
  - unfold parseLongFlag. rewrite Harg. eauto.
  - unfold parseShortFlag. rewrite Harg. eauto.
Qed.

Lemma scanLoop_total (fuel : nat) (argv : list string) (st : ScanState) :
  length argv - pos st <= fuel ->
  exists st', scanLoop fuel argv st = Some st' /\ argv !! pos st' = None.
Proof.
  revert st. induction fuel as [|fuel IH]; intros st Hfuel; simpl.
  - destruct (argv !! pos st) eqn:Harg; eauto.
    apply lookup_lt_Some in Harg. lia.
  - destruct (argv !! pos st) as [arg|] eqn:Harg; eauto.
    destruct (scanStep_total argv st arg Harg) as [st1 Hstep].
    rewrite Hstep. apply IH.
    apply scanStep_pos in Hstep. lia.
Qed.

Lemma scan_total (argv : list string) (flags : list Flag) :
  exists st, scan argv flags = Some st /\ argv !! pos st = None.
Proof. apply scanLoop_total. simpl. lia. Qed.

(** X2.  [parse] returns for every argument vector and registry: the
    handlers, which would throw on an index outside the argument vector,
    are only called inside it, and each iteration moves the index
    forward, so the scan ends within as many iterations as there are
    tokens. *)
Lemma parse_total (argv : list string) (flags : list RegistryEntry) :
  exists r, parse argv flags = Some r.
Proof.
  unfold parse. destruct (scan_total argv (filterFlags flags)) as (st & -> & _).
  eauto.
Qed.

(** A property kept by every iteration holds when the loop ends. *)
Lemma scanLoop_invariant (argv : list string) (I : ScanState -> Prop) :
  (forall st st', I st -> scanStep argv st = Some st' -> I st') ->
  forall fuel st st', I st -> scanLoop fuel argv st = Some st' -> I st'.
Proof.
  intros Hstep. induction fuel as [|fuel IH]; intros st st' HI; simpl.
  - destruct (argv !! pos st); [discriminate|]. now intros [= <-].
  - destruct (argv !! pos st); [|now intros [= <-]].
    destruct (scanStep argv st) as [st1|] eqn:H1; [|discriminate].
    apply IH. eapply Hstep; eauto.
Qed.

(** ** The value binder *)

Lemma existsb_eqb_In (value : string) (allowed : list string) :
  existsb (String.eqb value) allowed = true <-> In value allowed.
Proof.
  rewrite existsb_exists. split.
  - intros (x & Hin & Heq). apply String.eqb_eq in Heq. now subst.
  - intros Hin. exists value. split; auto. apply String.eqb_refl.
Qed.

Lemma stringify_strings (xs : list string) :
  stringify (VArray (map VString xs))
  = JsString.join ", " (map (fun s => stringify (VString s)) xs).
Proof. cbn [stringify]. now rewrite map_map. Qed.

Lemma setFlagValue_bound (flag : Flag) (value arg : string) :
  snd (setFlagValue flag value arg) = bound flag value.
Proof.
  unfold setFlagValue, bound. destruct (body flag) as [o c|o c|o c]; auto.
  - now destruct (JsNum.isNaN _).
  - destruct (oneOf o); auto. now destruct (negb _).
Qed.

(** C7.  Binding a value to a number flag stores [Number(value)] in the
    flag's current value whatever the string is, NaN included, and returns
    the NOT_A_NUMBER error exactly when the conversion gives NaN; it
    returns [null] otherwise. *)
Theorem C7_number_bind (flag : Flag) (o : NumberOptions)
  (cur : option JsNumber) (value arg : string) :
  body flag = NumberFlag o cur ->
  snd (setFlagValue flag value arg)
  = withBody flag (NumberFlag o (Some (JsNum.Number value)))
  /\ currentNumber (snd (setFlagValue flag value arg))
     = Some (JsNum.Number value)
  /\ fst (setFlagValue flag value arg)
     = if JsNum.isNaN (JsNum.Number value)
       then Some (newParserError NOT_A_NUMBER arg None)
       else None.
Proof.
  intros Hbody. unfold setFlagValue. rewrite Hbody.
  destruct (JsNum.isNaN (JsNum.Number value)); repeat split.
Qed.

Lemma C7_number_bind_witness :
  currentNumber (snd (setFlagValue ExampleProgram.count "abc" "count")) = Some NaN
  /\ fst (setFlagValue ExampleProgram.count "abc" "count")
     = Some (mkError NOT_A_NUMBER "the `count` flag expects a numerical value")
  /\ currentNumber (snd (setFlagValue ExampleProgram.count "42" "count"))
     = Some (JsNum.ofZ 42)
  /\ fst (setFlagValue ExampleProgram.count "42" "count") = None.
Proof.
  pose proof (C7_number_bind ExampleProgram.count _ None "abc" "count" eq_refl)
    as (_ & H1 & H2).
  pose proof (C7_number_bind ExampleProgram.count _ None "42" "count" eq_refl)
    as (_ & H3 & H4).
  split; [exact H1|]. split; [exact H2|]. split; [exact H3|exact H4].
Defined.

(** C8.  Binding a value to a string flag stores the raw value verbatim
    in the flag's current value.  It returns [null] exactly when [oneOf]
    is absent or contains the value; otherwise it returns the NOT_ONE_OF
    error, whose message lists the allowed values, each passed through
    [stringify], joined by a comma and a space.  Nothing but the flag, the
    value and the display name enters the result. *)
Theorem C8_string_bind (flag : Flag) (o : StringOptions)
  (cur : option string) (value arg : string) :
  body flag = StringFlag o cur ->
  snd (setFlagValue flag value arg)
  = withBody flag (StringFlag o (Some value))
  /\ (fst (setFlagValue flag value arg) = None <->
      forall allowed, oneOf o = Some allowed -> In value allowed)
  /\ (forall allowed,
        oneOf o = Some allowed -> ~ In value allowed ->
        fst (setFlagValue flag value arg)
        = Some (mkError NOT_ONE_OF
                  ("the `" ++ arg ++ "` flag expects one of: "
                   ++ JsString.join ", "
                        (map (fun s => stringify (VString s)) allowed)))).
Proof.
  intros Hbody. unfold setFlagValue. rewrite Hbody.
  destruct (oneOf o) as [allowed|].
  - destruct (existsb (String.eqb value) allowed) eqn:Hin; simpl negb; cbv iota.
    + apply existsb_eqb_In in Hin. split; [reflexivity|]. split.
      * split; [|reflexivity]. now intros _ allowed' [= <-].
      * intros allowed' [= <-] Hnot. contradiction.
    + assert (Hnot : ~ In value allowed).
      { rewrite <- existsb_eqb_In. congruence. }
      split; [reflexivity|]. split.
      * split; [discriminate|].
        intros H. exfalso. apply Hnot. now apply H.
      * intros allowed' [= <-] _. cbn [fst]. unfold newParserError, template.
        now rewrite stringify_strings.
  - split; [reflexivity|]. split.
    + split; [|reflexivity]. intros _ allowed [=].
    + intros allowed [=].
Qed.

Lemma C8_string_bind_witness :
  currentString (snd (setFlagValue modeFlag "c" "mode")) = Some "c"
  /\ fst (setFlagValue modeFlag "c" "mode")
     = Some (mkError NOT_ONE_OF "the `mode` flag expects one of: a, b").
Proof.
  pose proof (C8_string_bind modeFlag _ None "c" "mode" eq_refl)
    as (H1 & _ & H3).
  split.
  - now rewrite H1.
  - apply (H3 ["a"; "b"] eq_refl).
    intros [H|[H|[]]]; discriminate.
Defined.

(** ** Inversion of a long flag *)

Lemma slice_dashes (arg : string) : JsString.slice 2 ("--" ++ arg) = arg.
Proof. reflexivity. Qed.



Example parse_no_verbose :
  parse ["--no-verbose"] [Descriptor ExampleProgram.verbose]
  = Some (mkResult None []
            [withBody ExampleProgram.verbose
               (BooleanFlag {| urgent := None |} (Some false))]).
Proof. reflexivity. Qed.

(** ** A bare dash *)




Example parse_bare_dash :
  parse ["-"; "name"] [Descriptor ExampleProgram.verbose]
  = Some (mkResult None ["name"] [ExampleProgram.verbose]).
Proof. reflexivity. Qed.

(** ** Host string facts *)

Lemma slice_length (n : nat) (s : string) :
  String.length (JsString.slice n s) = String.length s - n.
Proof.
  revert s. induction n as [|n IH]; intros [|c s]; simpl; auto; lia.
Qed.

Lemma prefix_length (p s : string) :
  String.prefix p s = true -> String.length p <= String.length s.
Proof.
  revert s. induction p as [|c p IH]; intros [|d s]; simpl;
    try lia; try discriminate.
  destruct (ascii_dec c d); [|discriminate].
  intros H. apply IH in H. lia.
Qed.

(** A name is never the inversion of itself. *)
Lemma isInverted_same (s : string) : isInverted s s = false.
Proof.
  unfold isInverted, JsString.startsWith.
  assert (H : String.prefix "no-" s && String.eqb s (JsString.slice 3 s)
              = false).
  { destruct (String.prefix "no-" s) eqn:Hp; auto. rewrite andb_true_l.
    apply prefix_length in Hp. cbn [String.length] in Hp.
    apply String.eqb_neq. intros Heq.
    apply (f_equal String.length) in Heq. rewrite slice_length in Heq. lia. }
  now rewrite H.
Qed.

Lemma matchesLong_name (flag : Flag) : matchesLong (long flag) flag = true.
Proof. unfold matchesLong. rewrite String.eqb_refl. apply orb_true_r. Qed.

Lemma parseArgType_long (arg : string) :
  arg <> EmptyString -> parseArgType ("--" ++ arg) false = FLAG_LONG.
Proof. destruct arg; [congruence|reflexivity]. Qed.

Lemma indexOf_app (c : ascii) (key value : string) :
  JsString.indexOf c key = None ->
  JsString.indexOf c (key ++ String c value) = Some (String.length key).
Proof.
  induction key as [|d key IH]; simpl.
  - now rewrite Ascii.eqb_refl.
  - destruct (Ascii.eqb d c); [discriminate|].
    destruct (JsString.indexOf c key); [discriminate|].
    intros _. now rewrite IH.
Qed.

Lemma sliceTo_app (key rest : string) :
  JsString.sliceTo (String.length key) (key ++ rest) = key.
Proof. induction key as [|d key IH]; simpl; [now destruct rest|now rewrite IH]. Qed.

Lemma slice_app (key rest : string) (c : ascii) :
  JsString.slice (String.length key + 1) (key ++ String c rest) = rest.
Proof. induction key as [|d key IH]; simpl; auto. Qed.

(** ** A long flag that takes its value from the next token *)

Lemma nextPositional_Some (args : list string) (i : nat) (value : string) :
  nextPositional args i = Some value <->
  args !! (i + 1) = Some value
  /\ value <> EmptyString
  /\ parseArgType value false = POSITIONAL.
Proof.
  unfold nextPositional. destruct (args !! (i + 1)) as [next|].
  - destruct next as [|c next]; cbn [JsString.truthy andb].
    + split; [discriminate|]. intros ([= <-] & H & _). congruence.
    + destruct (parseArgType (String c next) false) eqn:Htype;
        cbn [isPositional].
      all: split; [intros H|intros ([= <-] & _ & H)]; try congruence.
      injection H as <-. repeat split; auto.
  - split; [discriminate|]. intros ([=] & _).
Qed.

Lemma nextPositional_None (args : list string) (i : nat) :
  nextPositional args i = None <->
  args !! (i + 1) = None
  \/ args !! (i + 1) = Some EmptyString
  \/ exists next, args !! (i + 1) = Some next
                  /\ parseArgType next false <> POSITIONAL.
Proof.
  unfold nextPositional. destruct (args !! (i + 1)) as [next|].
  - destruct next as [|c next]; cbn [JsString.truthy andb].
    + split; auto.
    + destruct (parseArgType (String c next) false) eqn:Htype;
        cbn [isPositional].
      all: split;
        [intros H; try discriminate; right; right; eexists; split; eauto;
         congruence
        |intros [H|[H|(n & [= <-] & H)]]; congruence].
  - split; auto.
Qed.

Lemma longValue_eq (i : nat) (argv : list string) (arg : string) (at_ : nat)
  (flag : Flag) (flags : list Flag) :
  isBoolean flag = false ->
  longValue (i + 1) argv arg at_ flag flags
  = match nextPositional argv i with
    | Some value =>
        (orIndex (fst (setFlagValue flag value arg)) (i + 1),
         <[at_ := bound flag value]> flags)
    | None =>
        match definedArgOptional flag with
        | Some dflt => (Idx (i + 1), <[at_ := bound flag dflt]> flags)
        | None => (Err (Some (newParserError MISSING_ARG arg None)), flags)
        end
    end.
Proof.
  intros Hkind. unfold longValue, nextPositional.
  assert (Hmissing :
    match body flag, definedArgOptional flag with
    | StringFlag o _, Some dflt =>
        (Idx (i + 1),
         <[at_ := withBody flag (StringFlag o (Some dflt))]> flags)
    | _, _ => (Err (Some (newParserError MISSING_ARG arg None)), flags)
    end
    = match definedArgOptional flag with
      | Some dflt => (Idx (i + 1), <[at_ := bound flag dflt]> flags)
      | None => (Err (Some (newParserError MISSING_ARG arg None)), flags)
      end).
  { unfold definedArgOptional, bound, isBoolean in *.
    destruct (body flag) as [o c|o c|o c]; auto; discriminate. }
  destruct (argv !! (i + 1)) as [value|]; [|exact Hmissing].
  destruct (JsString.truthy value); cbn [negb orb andb]; [|exact Hmissing].
  destruct (isPositional (parseArgType value false)); cbn [negb];
    [|exact Hmissing].
  rewrite <- setFlagValue_bound with (arg := arg).
  now destruct (setFlagValue flag value arg).
Qed.

(** The handler on [--<long>] for the first descriptor of that name, when
    it is not boolean. *)
Lemma parseLongFlag_named (i : nat) (argv : list string) (flags : list Flag)
  (at_ : nat) (flag : Flag) :
  argv !! i = Some ("--" ++ long flag)%string ->
  JsString.indexOf "=" (long flag) = None ->
  flags !! at_ = Some flag ->
  (forall j g, j < at_ -> flags !! j = Some g ->
               matchesLong (long flag) g = false) ->
  isBoolean flag = false ->
  parseLongFlag i argv flags
  = Some (longValue (i + 1) argv (long flag) at_ flag flags).
Proof.
  intros Htoken Heq Hat Hfirst Hkind.
  unfold parseLongFlag. rewrite Htoken, slice_dashes, Heq.
  rewrite (findFlag_first _ flags at_ flag Hat (matchesLong_name flag) Hfirst).
  rewrite isInverted_same. unfold isBoolean in Hkind.
  destruct (body flag); [discriminate|reflexivity|reflexivity].
Qed.

(** The handler on [--<long>=<value>] for the first descriptor of that
    name. *)
Lemma parseLongFlag_equals (i : nat) (argv : list string) (flags : list Flag)
  (at_ : nat) (flag : Flag) (value : string) :
  argv !! i = Some ("--" ++ long flag ++ "=" ++ value)%string ->
  JsString.indexOf "=" (long flag) = None ->
  flags !! at_ = Some flag ->
  (forall j g, j < at_ -> flags !! j = Some g ->
               String.eqb (long g) (long flag) = false) ->
  value <> EmptyString ->
  parseLongFlag i argv flags
  = Some (orIndex (fst (setFlagValue flag value (long flag))) i,
          <[at_ := bound flag value]> flags).
Proof.
  intros Htoken Heq Hat Hfirst Hvalue.
  unfold parseLongFlag. rewrite Htoken, slice_dashes.
  change ("=" ++ value)%string with (String "=" value).
  rewrite (indexOf_app _ _ _ Heq), sliceTo_app, slice_app.
  rewrite (findFlag_first _ flags at_ flag Hat (String.eqb_refl _) Hfirst).
  destruct value as [|c value]; [congruence|]. cbn [JsString.truthy negb].
  rewrite <- setFlagValue_bound with (arg := long flag).
  now destruct (setFlagValue flag (String c value) (long flag)).
Qed.

Lemma bound_number (flag : Flag) (o : NumberOptions) (c : option JsNumber)
  (value : string) :
  body flag = NumberFlag o c ->
  currentNumber (bound flag value) = Some (JsNum.Number value).
Proof. intros H. unfold bound. now rewrite H. Qed.

Lemma bound_string (flag : Flag) (o : StringOptions) (c : option string)
  (value : string) :
  body flag = StringFlag o c ->
  currentString (bound flag value) = Some value.
Proof. intros H. unfold bound. now rewrite H. Qed.

(** C4, as the code has it.  Let [flag] be a string or number descriptor,
    the first of the registry that [--<long>] matches.  For the token
    [--<long>]: when the next token is present, not empty and classified
    POSITIONAL, it is bound as the flag's value, and the handler returns
    the index of that token (the scan moves one extra position) when the
    bind reports no error, and the bind's error otherwise; when the next
    token is absent, empty or not POSITIONAL, the value of [argOptional]
    is stored if it is defined and MISSING_ARG is returned if not.  For
    the token [--<long>=<value>] with a non-empty value, the value is
    bound and the handler returns its own index when the bind reports no
    error.  In both forms the current value after the bind is the value
    converted for the kind: [Number(value)] for a number flag, the value
    itself for a string flag. *)
Theorem C4_long_flag_value (flags : list Flag) (at_ : nat) (flag : Flag) :
  flags !! at_ = Some flag ->
  (forall j g, j < at_ -> flags !! j = Some g ->
               matchesLong (long flag) g = false) ->
  isBoolean flag = false ->
  JsString.indexOf "=" (long flag) = None ->
  (forall i argv,
      argv !! i = Some ("--" ++ long flag)%string ->
      match nextPositional argv i with
      | Some value =>
          parseLongFlag i argv flags
          = Some (orIndex (fst (setFlagValue flag value (long flag))) (i + 1),
                  <[at_ := bound flag value]> flags)
      | None =>
          match definedArgOptional flag with
          | Some dflt =>
              exists j, parseLongFlag i argv flags
                        = Some (Idx j, <[at_ := bound flag dflt]> flags)
          | None =>
              parseLongFlag i argv flags
              = Some (Err (Some (newParserError MISSING_ARG (long flag) None)),
                      flags)
          end
      end)
  /\ (forall i argv value,
        argv !! i = Some ("--" ++ long flag ++ "=" ++ value)%string ->
        value <> EmptyString ->
        parseLongFlag i argv flags
        = Some (orIndex (fst (setFlagValue flag value (long flag))) i,
                <[at_ := bound flag value]> flags))
  /\ (forall value,
        match body flag with
        | NumberFlag _ _ =>
            currentNumber (bound flag value) = Some (JsNum.Number value)
        | StringFlag _ _ => currentString (bound flag value) = Some value
        | BooleanFlag _ _ => False
        end).
Proof.
  intros Hat Hfirst Hkind Heq. split; [|split].
  - intros i argv Htoken.
    rewrite (parseLongFlag_named i argv flags at_ flag); auto.
    rewrite longValue_eq by exact Hkind.
    destruct (nextPositional argv i); auto.
    destruct (definedArgOptional flag); eauto.
  - intros i argv value Htoken Hvalue.
    apply parseLongFlag_equals; auto.
    intros j g Hj Hg. specialize (Hfirst j g Hj Hg).
    unfold matchesLong in Hfirst. now apply orb_false_elim in Hfirst.
  - intros value. unfold isBoolean in Hkind.
    destruct (body flag) eqn:Hbody; [discriminate| |].
    + eapply bound_number; eauto.
    + eapply bound_string; eauto.
Qed.

Lemma C4_long_flag_value_witness :
  parseLongFlag 0 ["--count"; "3"] [ExampleProgram.count]
  = Some (Idx 1, [bound ExampleProgram.count "3"])
  /\ parseLongFlag 0 ["--count=3"] [ExampleProgram.count]
     = Some (Idx 0, [bound ExampleProgram.count "3"])
  /\ currentNumber (bound ExampleProgram.count "3") = Some (JsNum.ofZ 3).
Proof.
  assert (Hfirst : forall j g, j < 0 -> [ExampleProgram.count] !! j = Some g ->
                               matchesLong (long ExampleProgram.count) g = false)
    by (intros j g Hj; lia).
  pose proof (C4_long_flag_value [ExampleProgram.count] 0 ExampleProgram.count
                eq_refl Hfirst eq_refl eq_refl) as (Hnext & Hequals & Hbound).
  split; [|split].
  - exact (Hnext 0 ["--count"; "3"] eq_refl).
  - refine (Hequals 0 ["--count=3"] "3" eq_refl _). discriminate.
  - exact (Hbound "3").
Defined.

(** C4 fails as stated in two ways.  The value token [abc] after
    [--count] is present and POSITIONAL and is bound, yet the handler
    returns the bind's error and no index, so the scan does not move past
    the token, which ends among the positional arguments.  The empty token
    after [--last-name] is present and POSITIONAL, yet it is not bound:
    MISSING_ARG is returned. *)
Lemma C4_counterexample :
  parseArgType "abc" false = POSITIONAL
  /\ parseLongFlag 0 ["--count"; "abc"] [ExampleProgram.count]
     = Some (Err (Some (newParserError NOT_A_NUMBER "count" None)),
             [bound ExampleProgram.count "abc"])
  /\ (forall flags',
        parseLongFlag 0 ["--count"; "abc"] [ExampleProgram.count]
        <> Some (Idx 1, flags'))
  /\ parse ["--count"; "abc"] [Descriptor ExampleProgram.count]
     = Some (mkResult (Some "the `count` flag expects a numerical value")
               ["abc"] [bound ExampleProgram.count "abc"])
  /\ parseArgType EmptyString false = POSITIONAL
  /\ parseLongFlag 0 ["--last-name"; EmptyString] [ExampleProgram.lastName]
     = Some (Err (Some (newParserError MISSING_ARG "last-name" None)),
             [ExampleProgram.lastName]).
Proof.
  repeat split. intros flags' H. vm_compute in H. discriminate.
Qed.

(** ** A separated value that fails to bind *)

(** C9.  When the value token after [--<long>] fails to bind (the binder
    returns an error), the iteration merges the error and ends at the
    index of the flag token, so that the next iteration scans the value
    token itself; that token is classified POSITIONAL there and is
    appended to the positional arguments, besides having been stored in
    the flag. *)
Theorem C9_failed_bind_rescans_value (argv : list string) (st : ScanState)
  (at_ : nat) (flag : Flag) (value : string) (e : ParserError) :
  argv !! pos st = Some ("--" ++ long flag)%string ->
  forceFlagEnd st = false ->
  long flag <> EmptyString ->
  JsString.indexOf "=" (long flag) = None ->
  realFlags st !! at_ = Some flag ->
  (forall j g, j < at_ -> realFlags st !! j = Some g ->
               matchesLong (long flag) g = false) ->
  isBoolean flag = false ->
  nextPositional argv (pos st) = Some value ->
  fst (setFlagValue flag value (long flag)) = Some e ->
  scanStep argv st
  = Some (mkScan (pos st + 1) (setError (error st) (Some e)) false
            (restArgv st) (<[at_ := bound flag value]> (realFlags st)))
  /\ argv !! (pos st + 1) = Some value
  /\ parseArgType value false = POSITIONAL
  /\ scanStep argv
       (mkScan (pos st + 1) (setError (error st) (Some e)) false
          (restArgv st) (<[at_ := bound flag value]> (realFlags st)))
     = Some (mkScan (pos st + 2) (setError (error st) (Some e)) false
               (restArgv st ++ [value])
               (<[at_ := bound flag value]> (realFlags st))).
Proof.
  intros Htoken Hforce Hname Heq Hat Hfirst Hkind Hnext Hbind.
  pose proof (proj1 (nextPositional_Some _ _ _) Hnext) as (Hvalue & _ & Htype).
  split; [|split; [exact Hvalue|split; [exact Htype|]]].
  - unfold scanStep, scanBody. rewrite Htoken, Hforce.
    rewrite (parseArgType_long _ Hname).
    rewrite (parseLongFlag_named _ argv _ at_ flag); auto.
    rewrite longValue_eq by exact Hkind. rewrite Hnext, Hbind.
    cbn [orIndex dispatch advance pos error forceFlagEnd restArgv realFlags].
    now rewrite Hforce, Nat.add_1_r.
  - unfold scanStep, scanBody.
    cbn [pos forceFlagEnd error restArgv realFlags].
    rewrite Hvalue, Htype. unfold advance.
    cbn [pos error forceFlagEnd restArgv realFlags].
    do 2 f_equal. lia.
Qed.

Lemma C9_failed_bind_rescans_value_witness :
  scanStep ["--count"; "abc"] (scanStart [ExampleProgram.count])
  = Some (mkScan 1 (Some (newParserError NOT_A_NUMBER "count" None)) false
            [] [bound ExampleProgram.count "abc"])
  /\ scanStep ["--count"; "abc"]
       (mkScan 1 (Some (newParserError NOT_A_NUMBER "count" None)) false
          [] [bound ExampleProgram.count "abc"])
     = Some (mkScan 2 (Some (newParserError NOT_A_NUMBER "count" None)) false
               ["abc"] [bound ExampleProgram.count "abc"]).
Proof.
  assert (Hfirst : forall j g, j < 0 -> [ExampleProgram.count] !! j = Some g ->
                               matchesLong (long ExampleProgram.count) g = false)
    by (intros j g Hj; lia).
  assert (Hname : long ExampleProgram.count <> EmptyString) by discriminate.
  pose proof (C9_failed_bind_rescans_value ["--count"; "abc"]
                (scanStart [ExampleProgram.count]) 0 ExampleProgram.count "abc"
                (newParserError NOT_A_NUMBER "count" None)
                eq_refl eq_refl Hname eq_refl eq_refl Hfirst eq_refl
                eq_refl eq_refl) as (H1 & _ & _ & H2).
  split; [exact H1|exact H2].
Defined.

(** ** A short bundle that ends on a flag that takes a value *)

Lemma shortLoop_last (argPos : nat) (args : list string) (arg : string)
  (c : ascii) (error : option ParserError) (flags : list Flag) (at_ : nat)
  (flag : Flag) :
  flags !! at_ = Some flag ->
  short flag = Some (String c EmptyString) ->
  (forall j g, j < at_ -> flags !! j = Some g ->
               hasShort (String c EmptyString) g = false) ->
  isBoolean flag = false ->
  definedArgOptional flag = None ->
  shortLoop argPos args arg (String c EmptyString) error flags
  = match nextPositional args argPos with
    | Some next =>
        (orIndex
           (setError error
              (fst (setFlagValue flag next (String c EmptyString))))
           (argPos + 1),
         <[at_ := bound flag next]> flags)
    | None => (Err (Some (newParserError MISSING_ARG arg None)), flags)
    end.
Proof.
  intros Hat Hshort Hfirst Hkind Hopt. cbn [shortLoop].
  assert (Hp : hasShort (String c EmptyString) flag = true).
  { unfold hasShort. rewrite Hshort. apply String.eqb_refl. }
  rewrite (findFlag_first _ flags at_ flag Hat Hp Hfirst).
  cbn [JsString.truthy]. rewrite Hopt. unfold isBoolean in Hkind.
  assert (Hnext :
    match nextPositional args argPos with
    | Some next =>
        let '(newError, flag') :=
          setFlagValue flag next (String c EmptyString) in
        (orIndex (setError error newError) (argPos + 1),
         <[at_ := flag']> flags)
    | None => (Err (Some (newParserError MISSING_ARG arg None)), flags)
    end
    = match nextPositional args argPos with
      | Some next =>
          (orIndex
             (setError error
                (fst (setFlagValue flag next (String c EmptyString))))
             (argPos + 1),
           <[at_ := bound flag next]> flags)
      | None => (Err (Some (newParserError MISSING_ARG arg None)), flags)
      end).
  { destruct (nextPositional args argPos) as [next|]; auto.
    rewrite <- setFlagValue_bound with (arg := String c EmptyString).
    now destruct (setFlagValue flag next (String c EmptyString)). }
  destruct (body flag); [discriminate|exact Hnext|exact Hnext].
Qed.

(** C1, as the code has it.  When the loop over a short bundle reaches a
    string or number flag character with an empty tail and no
    [argOptional] applies: if the next token of the argument vector is
    present, not empty and classified POSITIONAL, that token is bound as
    the flag's value, and the handler returns the index of that token when
    neither the bundle nor the bind gave an error; otherwise the handler
    leaves the descriptors as they are and returns an error, which is
    MISSING_ARG citing the whole bundle when no earlier character of the
    bundle recorded an error. *)
Theorem C1_short_flag_empty_tail (argPos : nat) (args : list string)
  (arg : string) (c : ascii) (error : option ParserError)
  (flags : list Flag) (at_ : nat) (flag : Flag) :
  flags !! at_ = Some flag ->
  short flag = Some (String c EmptyString) ->
  (forall j g, j < at_ -> flags !! j = Some g ->
               hasShort (String c EmptyString) g = false) ->
  isBoolean flag = false ->
  definedArgOptional flag = None ->
  match nextPositional args argPos with
  | Some next =>
      shortLoop argPos args arg (String c EmptyString) error flags
      = (orIndex
           (setError error
              (fst (setFlagValue flag next (String c EmptyString))))
           (argPos + 1),
         <[at_ := bound flag next]> flags)
  | None =>
      snd (shortLoop argPos args arg (String c EmptyString) error flags)
      = flags
      /\ (exists e,
            fst (shortLoop argPos args arg (String c EmptyString) error flags)
            = Err (Some e))
      /\ (error = None ->
          fst (shortLoop argPos args arg (String c EmptyString) error flags)
          = Err (Some (newParserError MISSING_ARG arg None)))
  end.
Proof.
  intros Hat Hshort Hfirst Hkind Hopt.
  rewrite (shortLoop_last argPos args arg c error flags at_ flag) by auto.
  destruct (nextPositional args argPos); eauto.
Qed.

Lemma C1_short_flag_empty_tail_witness :
  shortLoop 0 ["-ab"; "extra"] "ab" "b" None
    [withBody alphaFlag (BooleanFlag {| urgent := None |} (Some true));
     betaFlag]
  = (Idx 1,
     [withBody alphaFlag (BooleanFlag {| urgent := None |} (Some true));
      bound betaFlag "extra"])
  /\ fst (shortLoop 0 ["-ab"] "ab" "b" None
            [withBody alphaFlag (BooleanFlag {| urgent := None |} (Some true));
             betaFlag])
     = Err (Some (newParserError MISSING_ARG "ab" None)).
Proof.
  split.
  - refine (C1_short_flag_empty_tail 0 ["-ab"; "extra"] "ab" "b" None
              [withBody alphaFlag
                 (BooleanFlag {| urgent := None |} (Some true));
               betaFlag]
              1 betaFlag eq_refl eq_refl _ eq_refl eq_refl).
    intros [|j] g Hj Hg; [|lia]. simpl in Hg. now injection Hg as <-.
  - refine (proj2 (proj2 (C1_short_flag_empty_tail 0 ["-ab"] "ab" "b" None
              [withBody alphaFlag
                 (BooleanFlag {| urgent := None |} (Some true));
               betaFlag]
              1 betaFlag eq_refl eq_refl _ eq_refl eq_refl)) eq_refl).
    intros [|j] g Hj Hg; [|lia]. simpl in Hg. now injection Hg as <-.
Defined.

(** C1 fails as stated: in [-ab extra] the token [extra] is taken as the
    value of [-b]; no MISSING_ARG is recorded, the parse succeeds and no
    positional argument is left. *)
Lemma C1_counterexample :
  parse ["-ab"; "extra"] [Descriptor alphaFlag; Descriptor betaFlag]
  = Some (mkResult None []
            [withBody alphaFlag (BooleanFlag {| urgent := None |} (Some true));
             bound betaFlag "extra"])
  /\ currentString (bound betaFlag "extra") = Some "extra".
Proof. split; reflexivity. Qed.

(** ** What one iteration of the scan does to the driver's variables *)

Lemma dispatch_fields (st : ScanState) (r : Outcome * list Flag) :
  restArgv (dispatch st r) = restArgv st
  /\ forceFlagEnd (dispatch st r) = forceFlagEnd st
  /\ exists e, error (dispatch st r) = setError (error st) e.
Proof.
  destruct r as [[e|j] flags']; simpl; repeat split; eauto.
  exists None. reflexivity.
Qed.

Lemma scanBody_cases (argv : list string) (st st' : ScanState) (arg : string) :
  scanBody argv st arg = Some st' ->
  (parseArgType arg (forceFlagEnd st) = FORCE_FLAG_END
   /\ st' = mkScan (pos st) (error st) true (restArgv st) (realFlags st))
  \/ (parseArgType arg (forceFlagEnd st) = POSITIONAL
      /\ st' = mkScan (pos st) (error st) (forceFlagEnd st)
                 (restArgv st ++ [arg]) (realFlags st))
  \/ exists r, st' = dispatch st r.
Proof.
  unfold scanBody. destruct (parseArgType arg (forceFlagEnd st)).
  - destruct (parseLongFlag _ _ _) as [r|]; [|discriminate].
    intros [= <-]. right. right. eauto.
  - destruct (parseShortFlag _ _ _) as [r|]; [|discriminate].
    intros [= <-]. right. right. eauto.
  - intros [= <-]. right. left. auto.
  - intros [= <-]. left. auto.
Qed.

(** In the driver, the retained error changes only through [setError]:
    after an iteration it is the error of before, or a new one of
    strictly greater kind. *)
Lemma scanStep_error (argv : list string) (st st' : ScanState) :
  scanStep argv st = Some st' ->
  error st' = error st \/ (rank (error st) < rank (error st'))%Z.
Proof.
  unfold scanStep. destruct (argv !! pos st) as [arg|]; [|discriminate].
  destruct (scanBody argv st arg) as [st1|] eqn:Hbody; [|discriminate].
  intros [= <-]. cbn [advance error].
  destruct (scanBody_cases _ _ _ _ Hbody) as [[_ ->]|[[_ ->]|[r ->]]];
    auto.
  destruct (dispatch_fields st r) as (_ & _ & e & ->).
  destruct (setError_cases (error st) e) as [[-> H]|[-> H]]; auto.
Qed.

Lemma postCheck_flag (flag : Flag) (e : option ParserError) :
  snd (postCheck flag e) = defaulted flag.
Proof.
  unfold defaulted, postCheck.
  destruct (body flag) as [o c|o [c|]|o [c|]]; auto.
  - destruct (isTrue (numberRequired o)); auto.
    now destruct (numberDefault o).
  - destruct (isTrue (stringRequired o)); auto.
    now destruct (stringDefault o).
Qed.

Lemma postCheck_error (flag : Flag) (e : option ParserError) :
  fst (postCheck flag e) = e
  \/ fst (postCheck flag e)
     = setError e (Some (newParserError MISSING_REQUIRED (long flag) None)).
Proof.
  unfold postCheck.
  destruct (body flag) as [o c|o [c|]|o [c|]]; auto.
  - destruct (isTrue (numberRequired o)); auto.
    now destruct (numberDefault o); left.
  - destruct (isTrue (stringRequired o)); auto.
    now destruct (stringDefault o); left.
Qed.

(** The priority law on the merge itself: whatever the order in which a
    MISSING_REQUIRED and a NOT_A_NUMBER error are merged, the second one
    is kept. *)
Lemma setError_required_number (e1 e2 : ParserError) :
  kind e1 = MISSING_REQUIRED ->
  kind e2 = NOT_A_NUMBER ->
  setError (setError None (Some e1)) (Some e2) = Some e2
  /\ setError (setError None (Some e2)) (Some e1) = Some e2.
Proof. intros H1 H2. simpl. now rewrite H1, H2. Qed.

Example parse_required_and_number :
  parse ["--age"; "abc"] ExampleProgram.flags
  = Some (mkResult (Some "the `age` flag expects a numerical value")
            ["abc"]
            (map defaulted
               [ExampleProgram.help; ExampleProgram.version; ExampleProgram.verbose;
                ExampleProgram.count; ExampleProgram.color; ExampleProgram.prefix;
                bound ExampleProgram.age "abc"; ExampleProgram.lastName])).
Proof. reflexivity. Qed.

(** ** The loop over the descriptors after the scan *)

Lemma postLoop_urgent (before after : list Flag) (hit : Flag)
  (e : option ParserError) :
  Forall (fun f => urgentHit f = false) before ->
  urgentHit hit = true ->
  postLoop (before ++ hit :: after) e
  = Urgent (map defaulted before ++ hit :: after).
Proof.
  intros Hbefore Hhit. revert e.
  induction Hbefore as [|f before Hf _ IH]; intros e; simpl.
  - now rewrite Hhit.
  - rewrite Hf. rewrite <- (postCheck_flag f e).
    destruct (postCheck f e) as [e' f']. now rewrite IH.
Qed.

Lemma postLoop_checked (flags : list Flag) (e : option ParserError) :
  Forall (fun f => urgentHit f = false) flags ->
  exists e', postLoop flags e = Checked e' (map defaulted flags).
Proof.
  intros Hall. revert e.
  induction Hall as [|f flags Hf _ IH]; intros e; simpl; eauto.
  rewrite Hf. rewrite <- (postCheck_flag f e).
  destruct (postCheck f e) as [e' f']. destruct (IH e') as [e'' ->]. eauto.
Qed.

(** MISSING_REQUIRED has the lowest kind, so the checks after the scan
    never replace an error that the scan retained. *)
Lemma postCheck_keeps_error (flag : Flag) (err : ParserError) :
  fst (postCheck flag (Some err)) = Some err.
Proof.
  destruct (postCheck_error flag (Some err)) as [->| ->]; auto.
  cbn [setError newParserError kind kindValue].
  pose proof (kindValue_pos (kind err)).
  destruct (Z.gtb_spec 1 (kindValue (kind err))); auto. lia.
Qed.

Lemma postLoop_keeps_error (flags flags' : list Flag) (err : ParserError)
  (e' : option ParserError) :
  postLoop flags (Some err) = Checked e' flags' -> e' = Some err.
Proof.
  revert flags'. induction flags as [|f flags IH]; intros flags'; simpl.
  - now intros [= <- _].
  - destruct (urgentHit f); [discriminate|].
    pose proof (postCheck_keeps_error f err) as Hkeep.
    destruct (postCheck f (Some err)) as [e1 f1]. simpl in Hkeep. subst e1.
    destruct (postLoop flags (Some err)) as [|e2 flags2] eqn:Hloop;
      [discriminate|].
    intros [= <- _]. now apply (IH flags2).
Qed.

Lemma first_urgent (flags : list Flag) :
  existsb urgentHit flags = true ->
  exists before hit after,
    flags = before ++ hit :: after
    /\ urgentHit hit = true
    /\ Forall (fun f => urgentHit f = false) before.
Proof.
  induction flags as [|f flags IH]; simpl; [discriminate|].
  destruct (urgentHit f) eqn:Hf; simpl.
  - intros _. exists [], f, flags. auto.
  - intros H. destruct (IH H) as (before & hit & after & -> & Hhit & Hall).
    exists (f :: before), hit, after. auto.
Qed.

Lemma no_urgent (flags : list Flag) :
  existsb urgentHit flags = false ->
  Forall (fun f => urgentHit f = false) flags.
Proof.
  induction flags as [|f flags IH]; simpl; auto.
  intros H. apply orb_false_elim in H as [Hf H]. auto.
Qed.

(** C3, as the code has it.  If after the scan some descriptor is an
    urgent boolean flag whose current value is true, [parse] returns
    [null] whatever error the scan retained, and leaves the argument
    array as it was.  The loop over the descriptors stops at the first
    such descriptor: that descriptor and all registered after it get no
    required or default check, while those registered before it have had
    theirs, so that their defaults are applied. *)
Theorem C3_urgent_short_circuit (argv : list string)
  (flags : list RegistryEntry) (st : ScanState) :
  scan argv (filterFlags flags) = Some st ->
  existsb urgentHit (realFlags st) = true ->
  exists before hit after,
    realFlags st = before ++ hit :: after
    /\ urgentHit hit = true
    /\ Forall (fun f => urgentHit f = false) before
    /\ parse argv flags
       = Some (mkResult None argv (map defaulted before ++ hit :: after)).
Proof.
  intros Hscan Hurgent.
  destruct (first_urgent _ Hurgent) as (before & hit & after & Heq & Hhit & Hall).
  exists before, hit, after. repeat split; auto.
  unfold parse, finish. rewrite Hscan, Heq.
  now rewrite (postLoop_urgent before after hit (error st) Hall Hhit).
Qed.

Lemma C3_urgent_short_circuit_witness :
  exists before hit after,
    urgentHit hit = true
    /\ parse ["--help"; "--age"; "not-a-number"] ExampleProgram.flags
       = Some (mkResult None ["--help"; "--age"; "not-a-number"]
                 (map defaulted before ++ hit :: after)).
Proof.
  destruct (C3_urgent_short_circuit
              ["--help"; "--age"; "not-a-number"] ExampleProgram.flags _
              eq_refl eq_refl)
    as (before & hit & after & _ & Hhit & _ & Hparse).
  exists before, hit, after. split; [exact Hhit|exact Hparse].
Defined.

Example parse_help_wins :
  option_map returned
    (parse ["--help"; "--age"; "not-a-number"] ExampleProgram.flags)
  = Some None.
Proof. reflexivity. Qed.

(** C3 fails as stated: with the number flag [count] registered before
    the urgent flag [help], parsing [--help] returns [null] after the
    default check of [count] has run; its current value, unset after the
    scan, is the default [1] after the parse. *)
Lemma C3_counterexample :
  option_map realFlags (scan ["--help"] [ExampleProgram.count; ExampleProgram.help])
  = Some [ExampleProgram.count;
          withBody ExampleProgram.help
            (BooleanFlag {| urgent := Some true |} (Some true))]
  /\ parse ["--help"] [Descriptor ExampleProgram.count; Descriptor ExampleProgram.help]
     = Some (mkResult None ["--help"]
               [defaulted ExampleProgram.count;
                withBody ExampleProgram.help
                  (BooleanFlag {| urgent := Some true |} (Some true))])
  /\ currentNumber ExampleProgram.count = None
  /\ currentNumber (defaulted ExampleProgram.count) = Some (JsNum.ofZ 1).
Proof. repeat split. Qed.

(** ** The positional arguments collected by the scan *)

Lemma take_sublist_le (argv : list string) (n m : nat) :
  n <= m -> take n argv `sublist_of` take m argv.
Proof.
  intros Hle. replace (take n argv) with (take n (take m argv)).
  - apply sublist_take.
  - rewrite take_take. f_equal. lia.
Qed.

Lemma parseArgType_end_marker (arg : string) (forceEnd : bool) :
  parseArgType arg forceEnd = FORCE_FLAG_END -> arg = "--"%string.
Proof.
  unfold parseArgType. destruct forceEnd; [discriminate|].
  destruct (String.eqb_spec arg "--"); auto.
  destruct (JsString.startsWith "--" arg); [discriminate|].
  destruct arg as [|c arg]; [discriminate|].
  destruct (Ascii.ascii_dec c "-") as [->|Hc]; [discriminate|].
  intros H. exfalso. revert H.
  destruct c as [[] [] [] [] [] [] [] []]; discriminate || congruence.
Qed.

Lemma restInvariant_step (argv : list string) (st st' : ScanState) :
  restInvariant argv st -> scanStep argv st = Some st' ->
  restInvariant argv st'.
Proof.
  intros (Hsub & Hforce & Hall) Hstep.
  pose proof (scanStep_pos _ _ _ Hstep) as Hpos.
  unfold scanStep in Hstep.
  destruct (argv !! pos st) as [arg|] eqn:Harg; [|discriminate].
  destruct (scanBody argv st arg) as [st1|] eqn:Hbody; [|discriminate].
  injection Hstep as <-.
  assert (Hgrow : restArgv st `sublist_of` take (pos (advance st1)) argv).
  { etransitivity; [exact Hsub|]. apply take_sublist_le. lia. }
  destruct (scanBody_cases _ _ _ _ Hbody) as [[Htype ->]|[[Htype ->]|[r ->]]].
  - repeat split; auto. intros _.
    apply parseArgType_end_marker in Htype. subst arg.
    apply list_elem_of_In. eapply list_elem_of_lookup_2; eauto.
  - repeat split; auto.
    + cbn [advance pos restArgv]. rewrite (take_S_r _ _ _ Harg).
      now apply sublist_app.
    + cbn [advance restArgv]. apply Forall_app. split; auto.
      constructor; auto.
      destruct (forceFlagEnd st); [right; auto|left; exact Htype].
  - destruct (dispatch_fields st r) as (Hrest & Hf & _).
    unfold restInvariant. cbn [advance restArgv forceFlagEnd] in *.
    rewrite Hrest, Hf. auto.
Qed.

Lemma scan_restInvariant (argv : list string) (flags : list Flag)
  (st : ScanState) :
  scan argv flags = Some st -> restInvariant argv st.
Proof.
  apply (scanLoop_invariant argv (restInvariant argv)).
  - apply restInvariant_step.
  - repeat split; simpl; auto; try discriminate; try apply sublist_nil_l.
Qed.



Example parse_round_trip :
  parse ["pos1"; "--count"; "3"; "pos2"] [Descriptor ExampleProgram.count]
  = Some (mkResult None ["pos1"; "pos2"] [bound ExampleProgram.count "3"])
  /\ currentNumber (bound ExampleProgram.count "3") = Some (JsNum.ofZ 3).
Proof. split; reflexivity. Qed.


(** ** An error recorded in a bundle and lost *)

(** C2, on the input where it fails.  In the bundle [-xc], [x] matches no
    descriptor and [c] is the number flag [count], which is left without
    a value.  The loop records UNRECOGNIZED_FLAG (kind 7) for [x]; at [c]
    it returns a new MISSING_ARG (kind 6) error without merging, so the
    driver never sees the first error and the parse reports the one of
    lower kind. *)
Theorem C2_bundle_discards_recorded_error :
  shortLoop 0 ["-xc"] "xc" "xc" None [ExampleProgram.count]
  = shortLoop 0 ["-xc"] "xc" "c"
      (Some (newParserError UNRECOGNIZED_FLAG "x" None)) [ExampleProgram.count]
  /\ shortLoop 0 ["-xc"] "xc" "c"
       (Some (newParserError UNRECOGNIZED_FLAG "x" None)) [ExampleProgram.count]
     = (Err (Some (newParserError MISSING_ARG "xc" None)), [ExampleProgram.count])
  /\ parse ["-xc"] [Descriptor ExampleProgram.count]
     = Some (mkResult (Some "the `xc` flag expects an argument") []
               [defaulted ExampleProgram.count])
  /\ (kindValue MISSING_ARG < kindValue UNRECOGNIZED_FLAG)%Z
  /\ setError (Some (newParserError UNRECOGNIZED_FLAG "x" None))
       (Some (newParserError MISSING_ARG "xc" None))
     = Some (newParserError UNRECOGNIZED_FLAG "x" None).
Proof. repeat split. Qed.

(** * Further properties of the parser *)

(** ** Only the current value of a descriptor ever changes *)

Lemma sameOptions_refl (b : FlagBody) : sameOptions b b.
Proof. now destruct b. Qed.

Lemma sameOptions_trans (b1 b2 b3 : FlagBody) :
  sameOptions b1 b2 -> sameOptions b2 b3 -> sameOptions b1 b3.
Proof. destruct b1, b2, b3; simpl; congruence || tauto. Qed.

Lemma sameDescriptor_refl (f : Flag) : sameDescriptor f f.
Proof. repeat split. apply sameOptions_refl. Qed.

Lemma sameDescriptor_trans (f g h : Flag) :
  sameDescriptor f g -> sameDescriptor g h -> sameDescriptor f h.
Proof.
  intros (H1 & H2 & H3 & H4 & H5) (K1 & K2 & K3 & K4 & K5).
  repeat split; try congruence. eapply sameOptions_trans; eauto.
Qed.

Lemma sameRegistry_refl (flags : list Flag) :
  Forall2 sameDescriptor flags flags.
Proof. induction flags; constructor; auto using sameDescriptor_refl. Qed.

Lemma sameRegistry_trans (l1 l2 l3 : list Flag) :
  Forall2 sameDescriptor l1 l2 -> Forall2 sameDescriptor l2 l3 ->
  Forall2 sameDescriptor l1 l3.
Proof.
  intros H. revert l3. induction H as [|f g l1 l2 Hfg _ IH]; intros l3 H3.
  - inversion H3. constructor.
  - inversion H3 as [|g' h l2' l3' Hgh Hrest]; subst.
    constructor; eauto using sameDescriptor_trans.
Qed.

Lemma sameDescriptor_withBody (f : Flag) (b : FlagBody) :
  sameOptions (body f) b -> sameDescriptor f (withBody f b).
Proof. intros H. repeat split. exact H. Qed.

Lemma sameDescriptor_bound (f : Flag) (value : string) :
  sameDescriptor f (bound f value).
Proof.
  unfold bound. destruct (body f) eqn:Hbody.
  - apply sameDescriptor_refl.
  - apply sameDescriptor_withBody. now rewrite Hbody.
  - apply sameDescriptor_withBody. now rewrite Hbody.
Qed.

Lemma sameDescriptor_defaulted (f : Flag) : sameDescriptor f (defaulted f).
Proof.
  unfold defaulted, postCheck.
  destruct (body f) as [o c|o [c|]|o [c|]] eqn:Hbody;
    try apply sameDescriptor_refl.
  - destruct (isTrue (numberRequired o)); [apply sameDescriptor_refl|].
    destruct (numberDefault o); [|apply sameDescriptor_refl].
    apply sameDescriptor_withBody. now rewrite Hbody.
  - destruct (isTrue (stringRequired o)); [apply sameDescriptor_refl|].
    destruct (stringDefault o); [|apply sameDescriptor_refl].
    apply sameDescriptor_withBody. now rewrite Hbody.
Qed.

(** Replacing a descriptor by another state of itself. *)
Lemma sameRegistry_insert (flags : list Flag) (k : nat) (f g : Flag) :
  flags !! k = Some f -> sameDescriptor f g ->
  Forall2 sameDescriptor flags (<[k := g]> flags).
Proof.
  intros Hat Hfg. rewrite <- (list_insert_id flags k f Hat) at 1.
  apply Forall2_insert; auto using sameRegistry_refl.
Qed.

Lemma shortLoop_sameRegistry (argPos : nat) (args : list string)
  (arg rest : string) (error : option ParserError) (flags : list Flag) :
  Forall2 sameDescriptor flags
    (snd (shortLoop argPos args arg rest error flags)).
Proof.
  revert error flags.
  induction rest as [|c value IH]; intros error flags; simpl.
  - apply sameRegistry_refl.
  - destruct (findFlag _ flags) as [[at_ validFlag]|] eqn:Hfind; [|apply IH].
    apply findFlag_Some in Hfind as (Hat & _ & _).
    assert (Hbind : forall v a,
      Forall2 sameDescriptor flags
        (<[at_ := snd (setFlagValue validFlag v a)]> flags)).
    { intros v a. rewrite setFlagValue_bound.
      eapply sameRegistry_insert; eauto using sameDescriptor_bound. }
    assert (Hset : forall b, sameOptions (body validFlag) b ->
      forall e, Forall2 sameDescriptor flags
        (snd (shortLoop argPos args arg value e
                (<[at_ := withBody validFlag b]> flags)))).
    { intros b Hb e. eapply sameRegistry_trans; [|apply IH].
      eapply sameRegistry_insert; eauto using sameDescriptor_withBody. }
    assert (Hnext :
      Forall2 sameDescriptor flags
        (snd match nextPositional args argPos with
             | Some next =>
                 let '(newError, flag') :=
                   setFlagValue validFlag next (String c EmptyString) in
                 (orIndex (setError error newError) (argPos + 1),
                  <[at_ := flag']> flags)
             | None =>
                 (Err (Some (newParserError MISSING_ARG arg None)), flags)
             end)).
    { destruct (nextPositional args argPos) as [next|];
        [|apply sameRegistry_refl].
      specialize (Hbind next (String c EmptyString)).
      now destruct (setFlagValue validFlag next (String c EmptyString)). }
    destruct (body validFlag) as [o cur|o cur|o cur] eqn:Hbody.
    + apply Hset. rewrite ?Hbody. reflexivity.
    + destruct (JsString.truthy value); [|exact Hnext].
      specialize (Hbind value (String c EmptyString)).
      now destruct (setFlagValue validFlag value (String c EmptyString)).
    + destruct (JsString.truthy value).
      * specialize (Hbind value (String c EmptyString)).
        now destruct (setFlagValue validFlag value (String c EmptyString)).
      * destruct (definedArgOptional validFlag); [|exact Hnext].
        apply Hset. rewrite ?Hbody. reflexivity.
Qed.

Lemma parseLongFlag_sameRegistry (i : nat) (argv : list string)
  (flags : list Flag) (r : Outcome * list Flag) :
  parseLongFlag i argv flags = Some r ->
  Forall2 sameDescriptor flags (snd r).
Proof.
  unfold parseLongFlag. destruct (argv !! i) as [token|]; [|discriminate].
  intros [= <-].
  assert (Hbind : forall at_ f v a, flags !! at_ = Some f ->
    Forall2 sameDescriptor flags (<[at_ := snd (setFlagValue f v a)]> flags)).
  { intros at_ f v a Hat. rewrite setFlagValue_bound.
    eapply sameRegistry_insert; eauto using sameDescriptor_bound. }
  destruct (JsString.indexOf _ _) as [eqIndex|].
  - destruct (findFlag _ flags) as [[at_ validFlag]|] eqn:Hfind;
      [|apply sameRegistry_refl].
    apply findFlag_Some in Hfind as (Hat & _ & _).
    destruct (negb _); [apply sameRegistry_refl|].
    specialize (Hbind at_ validFlag
                  (JsString.slice (eqIndex + 1) (JsString.slice 2 token))
                  (JsString.sliceTo eqIndex (JsString.slice 2 token)) Hat).
    now destruct (setFlagValue _ _ _).
  - destruct (findFlag _ flags) as [[at_ validFlag]|] eqn:Hfind;
      [|apply sameRegistry_refl].
    apply findFlag_Some in Hfind as (Hat & _ & _).
    destruct (isInverted _ _).
    + destruct (negb _); [apply sameRegistry_refl|].
      eapply sameRegistry_insert; eauto.
      apply sameDescriptor_withBody. now destruct (body validFlag).
    + assert (Hvalue :
        Forall2 sameDescriptor flags
          (snd (longValue (i + 1) argv (JsString.slice 2 token) at_
                  validFlag flags))).
      { unfold longValue.
        assert (Hmissing :
          Forall2 sameDescriptor flags
            (snd match body validFlag, definedArgOptional validFlag with
                 | StringFlag o _, Some dflt =>
                     (Idx (i + 1),
                      <[at_ := withBody validFlag
                                 (StringFlag o (Some dflt))]> flags)
                 | _, _ =>
                     (Err (Some (newParserError MISSING_ARG
                                   (JsString.slice 2 token) None)), flags)
                 end)).
        { destruct (body validFlag) eqn:Hbody; try apply sameRegistry_refl.
          destruct (definedArgOptional validFlag);
            [|apply sameRegistry_refl].
          eapply sameRegistry_insert; eauto.
          apply sameDescriptor_withBody. now rewrite Hbody. }
        destruct (argv !! (i + 1)) as [argValue|]; [|exact Hmissing].
        destruct (_ || _); [exact Hmissing|].
        specialize (Hbind at_ validFlag argValue (JsString.slice 2 token) Hat).
        now destruct (setFlagValue _ _ _). }
      destruct (body validFlag) eqn:Hbody; try exact Hvalue.
      eapply sameRegistry_insert; eauto.
      apply sameDescriptor_withBody. now rewrite Hbody.
Qed.

Lemma dispatch_realFlags (st : ScanState) (r : Outcome * list Flag) :
  realFlags (dispatch st r) = snd r.
Proof. now destruct r as [[e|j] flags']. Qed.

Lemma scanStep_sameRegistry (argv : list string) (st st' : ScanState) :
  scanStep argv st = Some st' ->
  Forall2 sameDescriptor (realFlags st) (realFlags st').
Proof.
  unfold scanStep. destruct (argv !! pos st) as [arg|]; [|discriminate].
  destruct (scanBody argv st arg) as [st1|] eqn:Hbody; [|discriminate].
  intros [= <-]. cbn [advance realFlags].
  unfold scanBody in Hbody.
  destruct (parseArgType arg (forceFlagEnd st)).
  - destruct (parseLongFlag _ _ _) as [r|] eqn:Hr; [|discriminate].
    injection Hbody as <-. rewrite dispatch_realFlags.
    eapply parseLongFlag_sameRegistry; eauto.
  - unfold parseShortFlag in Hbody.
    destruct (argv !! pos st) as [token|]; [|discriminate].
    injection Hbody as <-. rewrite dispatch_realFlags.
    apply shortLoop_sameRegistry.
  - injection Hbody as <-. apply sameRegistry_refl.
  - injection Hbody as <-. apply sameRegistry_refl.
Qed.

Lemma scan_sameRegistry (argv : list string) (flags : list Flag)
  (st : ScanState) :
  scan argv flags = Some st -> Forall2 sameDescriptor flags (realFlags st).
Proof.
  apply (scanLoop_invariant argv
           (fun st => Forall2 sameDescriptor flags (realFlags st))).
  - intros st1 st2 H1 Hstep.
    eapply sameRegistry_trans; eauto using scanStep_sameRegistry.
  - apply sameRegistry_refl.
Qed.

Lemma postLoop_sameRegistry (flags : list Flag) (e : option ParserError) :
  Forall2 sameDescriptor flags
    match postLoop flags e with
    | Urgent flags' => flags'
    | Checked _ flags' => flags'
    end.
Proof.
  revert e. induction flags as [|f flags IH]; intros e; simpl.
  - constructor.
  - destruct (urgentHit f); [apply sameRegistry_refl|].
    pose proof (postCheck_flag f e) as Hflag.
    destruct (postCheck f e) as [e' f']. simpl in Hflag. subst f'.
    specialize (IH e').
    destruct (postLoop flags e'); constructor;
      auto using sameDescriptor_defaulted.
Qed.

(** X4.  [parse] neither adds nor removes nor reorders descriptors, and
    in each descriptor it changes nothing but the current value: the long
    and short names, the description, [invertable], the kind and the
    options of the kind are those of the registry handed in. *)
Theorem parse_changes_only_current (argv : list string)
  (flags : list RegistryEntry) (r : ParseResult) :
  parse argv flags = Some r ->
  Forall2 sameDescriptor (filterFlags flags) (flagsAfter r).
Proof.
  unfold parse. destruct (scan argv (filterFlags flags)) as [st|] eqn:Hscan;
    [|discriminate].
  intros [= <-]. eapply sameRegistry_trans.
  - eapply scan_sameRegistry; eauto.
  - unfold finish. pose proof (postLoop_sameRegistry (realFlags st) (error st)).
    now destruct (postLoop (realFlags st) (error st)).
Qed.

Lemma parse_changes_only_current_witness :
  Forall2 sameDescriptor (filterFlags ExampleProgram.flags)
    (map defaulted
       [ExampleProgram.help; ExampleProgram.version; ExampleProgram.verbose;
        ExampleProgram.count; ExampleProgram.color; ExampleProgram.prefix;
        bound ExampleProgram.age "abc"; ExampleProgram.lastName]).
Proof.
  exact (parse_changes_only_current ["--age"; "abc"] ExampleProgram.flags
           _ eq_refl).
Defined.

(** ** The error retained by the driver over the whole scan *)

(** X3.  From any state of the scan loop to the state in which the loop
    ends, the error retained by the driver is either the same error or
    one of strictly greater kind; in particular an error, once retained,
    is never dropped during the scan. *)
Theorem scan_error_only_grows (argv : list string) (fuel : nat)
  (st st' : ScanState) :
  scanLoop fuel argv st = Some st' ->
  error st' = error st \/ (rank (error st) < rank (error st'))%Z.
Proof.
  apply (scanLoop_invariant argv
           (fun s => error s = error st
                     \/ (rank (error st) < rank (error s))%Z)); auto.
  intros s1 s2 H1 Hstep.
  destruct (scanStep_error _ _ _ Hstep) as [H2|H2].
  - rewrite H2. exact H1.
  - right. destruct H1 as [H1|H1]; [rewrite <- H1; exact H2|lia].
Qed.

Lemma scan_error_only_grows_witness :
  option_map error
    (scanLoop 3 ["--age"; "abc"; "--bogus"]
       (scanStart (filterFlags ExampleProgram.flags)))
  = Some (Some (newParserError UNRECOGNIZED_FLAG "bogus" None))
  /\ (exists st',
        scanLoop 3 ["--age"; "abc"; "--bogus"]
          (scanStart (filterFlags ExampleProgram.flags)) = Some st'
        /\ (error st' = None \/ (0 < rank (error st'))%Z)).
Proof.
  split; [reflexivity|].
  eexists. split; [reflexivity|].
  exact (scan_error_only_grows ["--age"; "abc"; "--bogus"] 3
           (scanStart (filterFlags ExampleProgram.flags)) _ eq_refl).
Defined.

(** ** Tokens that are all positional *)

Lemma lookup_drop_head (argv : list string) (k : nat) (arg : string) :
  argv !! k = Some arg -> drop k argv = arg :: drop (S k) argv.
Proof. apply drop_S. Qed.

(** When every token from the current index on is classified POSITIONAL
    under the current [forceFlagEnd], the loop appends them all, in
    order, and touches nothing else. *)
Lemma scanLoop_positional (argv : list string) (fuel : nat) (st : ScanState) :
  length argv - pos st <= fuel ->
  pos st <= length argv ->
  Forall (fun a => parseArgType a (forceFlagEnd st) = POSITIONAL)
    (drop (pos st) argv) ->
  scanLoop fuel argv st
  = Some (mkScan (length argv) (error st) (forceFlagEnd st)
            (restArgv st ++ drop (pos st) argv) (realFlags st)).
Proof.
  revert st. induction fuel as [|fuel IH]; intros st Hfuel Hpos Hall; simpl.
  - destruct (argv !! pos st) as [arg|] eqn:Harg.
    + apply lookup_lt_Some in Harg. lia.
    + assert (pos st = length argv) as Heq by lia.
      rewrite Heq, drop_all, app_nil_r. rewrite <- Heq. now destruct st.
  - destruct (argv !! pos st) as [arg|] eqn:Harg.
    + rewrite (lookup_drop_head _ _ _ Harg) in Hall.
      inversion Hall as [|a l Harg' Hrest]; subst.
      unfold scanStep, scanBody. rewrite Harg, Harg'.
      pose proof (lookup_lt_Some _ _ _ Harg) as Hlt.
      rewrite IH; cbn [advance pos error forceFlagEnd restArgv realFlags];
        try lia; auto.
      rewrite (lookup_drop_head _ _ _ Harg), <- app_assoc. reflexivity.
    + apply lookup_ge_None_1 in Harg.
      assert (pos st = length argv) as Heq by lia.
      rewrite Heq, drop_all, app_nil_r. rewrite <- Heq. now destruct st.
Qed.

(** X6.  Once the end-of-flags marker has been seen, every remaining
    token is collected as a positional argument, in order and verbatim,
    whatever it looks like; the retained error and the descriptors stay
    as they are. *)
Theorem scan_after_end_marker (argv : list string) (fuel : nat)
  (st : ScanState) :
  forceFlagEnd st = true ->
  pos st <= length argv ->
  length argv - pos st <= fuel ->
  scanLoop fuel argv st
  = Some (mkScan (length argv) (error st) true
            (restArgv st ++ drop (pos st) argv) (realFlags st)).
Proof.
  intros Hforce Hpos Hfuel.
  rewrite (scanLoop_positional argv fuel st Hfuel Hpos).
  - now rewrite Hforce.
  - rewrite Hforce. apply Forall_forall. intros a _. reflexivity.
Qed.

Lemma scan_after_end_marker_witness :
  scanLoop 3 ["--"; "--count"; "-x"]
    (mkScan 1 None true [] [ExampleProgram.count])
  = Some (mkScan 3 None true ["--count"; "-x"] [ExampleProgram.count]).
Proof.
  refine (scan_after_end_marker ["--"; "--count"; "-x"] 3
            (mkScan 1 None true [] [ExampleProgram.count]) eq_refl _ _);
    simpl; lia.
Defined.

Example parse_after_end_marker :
  parse ["--"; "--count"; "-x"] [Descriptor ExampleProgram.count]
  = Some (mkResult None ["--count"; "-x"] [defaulted ExampleProgram.count]).
Proof. reflexivity. Qed.

(** X7.  An argument vector in which no token begins with a dash is
    scanned without touching any descriptor and without error: the
    positional arguments are the whole vector. *)
Theorem scan_without_flags (argv : list string) (flags : list Flag) :
  Forall (fun a => parseArgType a false = POSITIONAL) argv ->
  scan argv flags = Some (mkScan (length argv) None false argv flags).
Proof.
  intros Hall. unfold scan.
  rewrite (scanLoop_positional argv (length argv) (scanStart flags));
    simpl; auto; lia.
Qed.

Lemma scan_without_flags_witness :
  scan ["a"; "b c"; EmptyString] [ExampleProgram.count]
  = Some (mkScan 3 None false ["a"; "b c"; EmptyString] [ExampleProgram.count]).
Proof.
  apply (scan_without_flags ["a"; "b c"; EmptyString] [ExampleProgram.count]).
  repeat constructor.
Defined.

(** ** What [parse] returns *)

Lemma postCheck_fst (flag : Flag) (e : option ParserError) :
  fst (postCheck flag e)
  = if unsetRequired flag
    then setError e (Some (newParserError MISSING_REQUIRED (long flag) None))
    else e.
Proof.
  unfold postCheck, unsetRequired.
  destruct (body flag) as [o c|o [c|]|o [c|]]; auto.
  - destruct (isTrue (numberRequired o)); auto.
    now destruct (numberDefault o).
  - destruct (isTrue (stringRequired o)); auto.
    now destruct (stringDefault o).
Qed.

Lemma postLoop_first_required (flags : list Flag) :
  Forall (fun f => urgentHit f = false) flags ->
  postLoop flags None
  = Checked
      match findFlag unsetRequired flags with
      | Some (_, f) => Some (newParserError MISSING_REQUIRED (long f) None)
      | None => None
      end
      (map defaulted flags).
Proof.
  induction 1 as [|f flags Hf Hall IH]; simpl; auto.
  rewrite Hf. pose proof (postCheck_fst f None) as Hfst.
  pose proof (postCheck_flag f None) as Hsnd.
  destruct (postCheck f None) as [e' f']. simpl in Hfst, Hsnd. subst e' f'.
  destruct (unsetRequired f).
  - cbn [setError].
    destruct (postLoop_checked flags
                (Some (newParserError MISSING_REQUIRED (long f) None))
                Hall) as [e'' Hpost].
    rewrite Hpost. f_equal.
    now apply postLoop_keeps_error in Hpost.
  - rewrite IH. now destruct (findFlag unsetRequired flags) as [[k g]|].
Qed.

(** X5.  The value returned by [parse], read off the state in which the
    scan ends: [null] when an urgent flag is set; otherwise the message of
    the error retained by the scan; otherwise the MISSING_REQUIRED message
    naming the first descriptor, in registration order, that is required
    and still unset; otherwise [null]. *)
Theorem parse_returned (argv : list string) (flags : list RegistryEntry)
  (st : ScanState) :
  scan argv (filterFlags flags) = Some st ->
  exists r,
    parse argv flags = Some r
    /\ returned r
       = if existsb urgentHit (realFlags st) then None
         else match error st with
              | Some e => Some (message e)
              | None =>
                  match findFlag unsetRequired (realFlags st) with
                  | Some (_, f) =>
                      Some ("missing required flag - `" ++ long f ++ "`")%string
                  | None => None
                  end
              end.
Proof.
  intros Hscan. unfold parse. rewrite Hscan. eexists. split; [reflexivity|].
  unfold finish.
  destruct (existsb urgentHit (realFlags st)) eqn:Hurgent.
  - destruct (first_urgent _ Hurgent)
      as (before & hit & after & Heq & Hhit & Hbefore).
    rewrite Heq.
    now rewrite (postLoop_urgent before after hit (error st) Hbefore Hhit).
  - apply no_urgent in Hurgent. destruct (error st) as [e|] eqn:Herr.
    + destruct (postLoop_checked (realFlags st) (Some e) Hurgent)
        as [e' Hpost].
      rewrite Hpost. apply postLoop_keeps_error in Hpost. now subst e'.
    + rewrite (postLoop_first_required _ Hurgent).
      now destruct (findFlag unsetRequired (realFlags st)) as [[k f]|].
Qed.

Lemma parse_returned_witness :
  exists r,
    parse [] ExampleProgram.flags = Some r
    /\ returned r = Some "missing required flag - `age`".
Proof.
  exact (parse_returned [] ExampleProgram.flags _ eq_refl).
Defined.

(** ** Errors of the long flag handler and the registry *)

Lemma setFlagValue_error_kind (flag : Flag) (value arg : string)
  (e : ParserError) :
  fst (setFlagValue flag value arg) = Some e ->
  kind e = NOT_A_NUMBER \/ kind e = NOT_ONE_OF
  \/ (kind e = UNEXPECTED_ARG /\ snd (setFlagValue flag value arg) = flag).
Proof.
  unfold setFlagValue. destruct (body flag) as [o c|o c|o c].
  - intros [= <-]. auto.
  - destruct (JsNum.isNaN _); [|discriminate]. intros [= <-]. auto.
  - destruct (oneOf o); [|discriminate].
    destruct (negb _); [|discriminate]. intros [= <-]. auto.
Qed.

(** X9.  The long flag handler never returns [null]; and whenever it
    returns an error other than a failed conversion (NOT_A_NUMBER,
    NOT_ONE_OF), it has left every descriptor as it was.  So an unknown
    flag, a missing argument, a refused inversion or an argument given to
    a boolean flag changes no value. *)
Theorem parseLongFlag_error_frame (i : nat) (argv : list string)
  (flags flags' : list Flag) (e : option ParserError) :
  parseLongFlag i argv flags = Some (Err e, flags') ->
  exists err,
    e = Some err
    /\ (flags' = flags
        \/ kind err = NOT_A_NUMBER \/ kind err = NOT_ONE_OF).
Proof.
  unfold parseLongFlag. destruct (argv !! i) as [token|]; [|discriminate].
  intros [= H]. revert H.
  assert (Hbind : forall at_ f v a j,
    flags !! at_ = Some f ->
    (let '(newError, flag') := setFlagValue f v a in
     (orIndex newError j, <[at_ := flag']> flags)) = (Err e, flags') ->
    exists err,
      e = Some err
      /\ (flags' = flags
          \/ kind err = NOT_A_NUMBER \/ kind err = NOT_ONE_OF)).
  { intros at_ f v a j Hat.
    pose proof (setFlagValue_error_kind f v a) as Hkind.
    destruct (setFlagValue f v a) as [[err|] f']; simpl in *;
      [|discriminate].
    intros [= <- <-]. exists err. split; auto.
    destruct (Hkind err eq_refl) as [H|[H|[_ ->]]]; auto.
    left. now apply list_insert_id. }
  destruct (JsString.indexOf _ _) as [eqIndex|].
  - destruct (findFlag _ flags) as [[at_ validFlag]|] eqn:Hfind.
    + apply findFlag_Some in Hfind as (Hat & _ & _).
      destruct (negb _); [intros [= <- <-]; eauto|].
      eapply Hbind; eauto.
    + intros [= <- <-]. eauto.
  - destruct (findFlag _ flags) as [[at_ validFlag]|] eqn:Hfind.
    + apply findFlag_Some in Hfind as (Hat & _ & _).
      destruct (isInverted _ _).
      * destruct (negb _); [intros [= <- <-]; eauto|discriminate].
      * assert (Hvalue :
          longValue (i + 1) argv (JsString.slice 2 token) at_ validFlag flags
          = (Err e, flags') ->
          exists err,
            e = Some err
            /\ (flags' = flags
                \/ kind err = NOT_A_NUMBER \/ kind err = NOT_ONE_OF)).
        { unfold longValue.
          assert (Hmissing :
            match body validFlag, definedArgOptional validFlag with
            | StringFlag o _, Some dflt =>
                (Idx (i + 1),
                 <[at_ := withBody validFlag (StringFlag o (Some dflt))]>
                   flags)
            | _, _ =>
                (Err (Some (newParserError MISSING_ARG
                              (JsString.slice 2 token) None)), flags)
            end = (Err e, flags') ->
            exists err,
              e = Some err
              /\ (flags' = flags
                  \/ kind err = NOT_A_NUMBER \/ kind err = NOT_ONE_OF)).
          { destruct (body validFlag); try (intros [= <- <-]; eauto).
            destruct (definedArgOptional validFlag);
              [discriminate|intros [= <- <-]; eauto]. }
          destruct (argv !! (i + 1)) as [argValue|]; [|exact Hmissing].
          destruct (_ || _); [exact Hmissing|].
          eapply Hbind; eauto. }
        destruct (body validFlag); [discriminate|exact Hvalue|exact Hvalue].
    + intros [= <- <-]. eauto.
Qed.

Lemma parseLongFlag_error_frame_witness :
  exists err,
    Some (newParserError UNEXPECTED_ARG "verbose" None) = Some err
    /\ ([ExampleProgram.verbose] = [ExampleProgram.verbose]
        \/ kind err = NOT_A_NUMBER \/ kind err = NOT_ONE_OF).
Proof.
  exact (parseLongFlag_error_frame 0 ["--verbose=yes"]
           [ExampleProgram.verbose] [ExampleProgram.verbose]
           (Some (newParserError UNEXPECTED_ARG "verbose" None)) eq_refl).
Defined.

(** ** Errors of the short flag handler *)

Lemma setFlagValue_value_kind (flag : Flag) (value arg : string)
  (e : ParserError) :
  isBoolean flag = false ->
  fst (setFlagValue flag value arg) = Some e ->
  kind e = NOT_A_NUMBER \/ kind e = NOT_ONE_OF.
Proof.
  unfold setFlagValue, isBoolean. destruct (body flag) as [o c|o c|o c].
  - discriminate.
  - destruct (JsNum.isNaN _); [|discriminate]. intros _ [= <-]. auto.
  - destruct (oneOf o); [|discriminate].
    destruct (negb _); [|discriminate]. intros _ [= <-]. auto.
Qed.

Lemma setError_Some (e n : option ParserError) (x : ParserError) :
  setError e n = Some x -> e = Some x \/ n = Some x.
Proof. destruct (setError_cases e n) as [[-> _]|[-> _]]; auto. Qed.

Lemma shortLoop_error_kinds (argPos : nat) (args : list string)
  (arg rest : string) (error : option ParserError)
  (flags flags' : list Flag) (e : ParserError) :
  shortLoop argPos args arg rest error flags = (Err (Some e), flags') ->
  error = Some e
  \/ kind e = UNRECOGNIZED_FLAG \/ kind e = MISSING_ARG
  \/ kind e = NOT_A_NUMBER \/ kind e = NOT_ONE_OF.
Proof.
  revert error flags.
  induction rest as [|c value IH]; intros error flags; cbn [shortLoop].
  - destruct error; simpl; [|discriminate]. intros [= -> _]. auto.
  - destruct (findFlag _ flags) as [[at_ validFlag]|].
    + assert (Hvalue : forall v (wrap : option ParserError -> Outcome),
        isBoolean validFlag = false ->
        (forall x, wrap x = Err (Some e) -> x = Some e) ->
        (let '(newError, flag') :=
           setFlagValue validFlag v (String c EmptyString) in
         (wrap (setError error newError), <[at_ := flag']> flags))
        = (Err (Some e), flags') ->
        error = Some e
        \/ kind e = UNRECOGNIZED_FLAG \/ kind e = MISSING_ARG
        \/ kind e = NOT_A_NUMBER \/ kind e = NOT_ONE_OF).
      { intros v wrap Hkind Hwrap.
        pose proof (setFlagValue_value_kind validFlag v (String c EmptyString))
          as Hk.
        destruct (setFlagValue validFlag v (String c EmptyString))
          as [newError f']. simpl in Hk.
        intros [= H _]. apply Hwrap in H.
        apply setError_Some in H as [H|H]; auto. }
      assert (HorIndex : forall j x, orIndex x j = Err (Some e) -> x = Some e).
      { intros j [x|]; simpl; [now intros [= ->]|discriminate]. }
      assert (HErr : forall x, Err x = Err (Some e) -> x = Some e)
        by (intros x [= ->]; reflexivity).
      assert (Hnext : isBoolean validFlag = false ->
        match nextPositional args argPos with
        | Some next =>
            let '(newError, flag') :=
              setFlagValue validFlag next (String c EmptyString) in
            (orIndex (setError error newError) (argPos + 1),
             <[at_ := flag']> flags)
        | None => (Err (Some (newParserError MISSING_ARG arg None)), flags)
        end = (Err (Some e), flags') ->
        error = Some e
        \/ kind e = UNRECOGNIZED_FLAG \/ kind e = MISSING_ARG
        \/ kind e = NOT_A_NUMBER \/ kind e = NOT_ONE_OF).
      { intros Hkind. destruct (nextPositional args argPos) as [next|].
        - apply (Hvalue next (fun x => orIndex x (argPos + 1))); auto.
          intros x. apply HorIndex.
        - intros [= <- _]. auto. }
      unfold isBoolean in *.
      destruct (body validFlag) as [o cur|o cur|o cur] eqn:Hbody.
      * apply IH.
      * destruct (JsString.truthy value); [|now apply Hnext].
        now apply (Hvalue value Err).
      * destruct (JsString.truthy value);
          [now apply (Hvalue value Err)|].
        destruct (definedArgOptional validFlag); [apply IH|now apply Hnext].
    + intros H. apply IH in H as [H|H]; auto.
      apply setError_Some in H as [H|H]; auto.
      injection H as <-. auto.
Qed.

(** X10.  The short flag handler returns only four kinds of error:
    UNRECOGNIZED_FLAG, MISSING_ARG, NOT_A_NUMBER and NOT_ONE_OF.  A
    boolean flag in a bundle is switched on and what follows it is read
    as further flags, so UNEXPECTED_ARG never comes from a bundle, nor
    does NOT_INVERTABLE. *)
Theorem parseShortFlag_error_kinds (argPos : nat) (args : list string)
  (flags flags' : list Flag) (e : ParserError) :
  parseShortFlag argPos args flags = Some (Err (Some e), flags') ->
  kind e = UNRECOGNIZED_FLAG \/ kind e = MISSING_ARG
  \/ kind e = NOT_A_NUMBER \/ kind e = NOT_ONE_OF.
Proof.
  unfold parseShortFlag. destruct (args !! argPos) as [token|];
    [|discriminate].
  intros [= H]. apply shortLoop_error_kinds in H as [H|H]; auto.
  discriminate.
Qed.

Lemma parseShortFlag_error_kinds_witness :
  kind (newParserError UNRECOGNIZED_FLAG "y" None) = UNRECOGNIZED_FLAG
  \/ kind (newParserError UNRECOGNIZED_FLAG "y" None) = MISSING_ARG
  \/ kind (newParserError UNRECOGNIZED_FLAG "y" None) = NOT_A_NUMBER
  \/ kind (newParserError UNRECOGNIZED_FLAG "y" None) = NOT_ONE_OF.
Proof.
  exact (parseShortFlag_error_kinds 0 ["-vyes"] [ExampleProgram.verbose]
           [setTrue ExampleProgram.verbose]
           (newParserError UNRECOGNIZED_FLAG "y" None) eq_refl).
Defined.

(** ** A bundle of boolean flags *)

Lemma findFlag_sameRegistry (p : Flag -> bool) (fl fl' : list Flag) :
  (forall f g, sameDescriptor f g -> p f = p g) ->
  Forall2 sameDescriptor fl fl' ->
  match findFlag p fl with
  | Some (k, f) =>
      exists g, findFlag p fl' = Some (k, g) /\ sameDescriptor f g
  | None => findFlag p fl' = None
  end.
Proof.
  intros Hp. induction 1 as [|f g fl fl' Hfg _ IH]; simpl; auto.
  rewrite <- (Hp f g Hfg). destruct (p f); [eauto|].
  destruct (findFlag p fl) as [[k h]|].
  - destruct IH as (h' & -> & Hh). eauto.
  - now rewrite IH.
Qed.

Lemma hasShort_same (m : string) (f g : Flag) :
  sameDescriptor f g -> hasShort m f = hasShort m g.
Proof. intros (_ & _ & Hs & _). unfold hasShort. now rewrite Hs. Qed.

Lemma isBoolean_same (f g : Flag) :
  sameDescriptor f g -> isBoolean f = isBoolean g.
Proof.
  intros (_ & _ & _ & _ & Ho). unfold isBoolean.
  destruct (body f), (body g); simpl in Ho; tauto.
Qed.

Lemma bundle_notions_same (fl fl' : list Flag) (rest : string) :
  Forall2 sameDescriptor fl fl' ->
  onlyBooleans fl' rest = onlyBooleans fl rest
  /\ firstUnknown fl' rest = firstUnknown fl rest
  /\ forall k, namedBy fl' rest k = namedBy fl rest k.
Proof.
  intros Hsame. induction rest as [|c value (IH1 & IH2 & IH3)]; simpl; auto.
  pose proof (findFlag_sameRegistry (hasShort (String c EmptyString)) fl fl'
                (hasShort_same _) Hsame) as Hfind.
  destruct (findFlag _ fl) as [[k f]|].
  - destruct Hfind as (g & -> & Hfg).
    rewrite IH1, IH2, (isBoolean_same f g Hfg).
    repeat split; auto. intros k'. now rewrite IH3.
  - rewrite Hfind, IH1. repeat split; auto.
Qed.

Lemma setTrue_idem (f : Flag) : setTrue (setTrue f) = setTrue f.
Proof. unfold setTrue. destruct (body f) eqn:Hb; simpl; now rewrite ?Hb. Qed.

Lemma sameDescriptor_setTrue (f : Flag) : sameDescriptor f (setTrue f).
Proof.
  unfold setTrue. destruct (body f) eqn:Hb; try apply sameDescriptor_refl.
  apply sameDescriptor_withBody. now rewrite Hb.
Qed.

Lemma shortLoop_booleans (argPos : nat) (args : list string)
  (arg rest : string) (error : option ParserError) (flags : list Flag) :
  onlyBooleans flags rest = true ->
  (forall e0, error = Some e0 -> kind e0 = UNRECOGNIZED_FLAG) ->
  fst (shortLoop argPos args arg rest error flags)
  = orIndex
      match error with
      | Some _ => error
      | None =>
          option_map
            (fun c => newParserError UNRECOGNIZED_FLAG
                        (String c EmptyString) None)
            (firstUnknown flags rest)
      end argPos
  /\ forall k,
       snd (shortLoop argPos args arg rest error flags) !! k
       = option_map (fun f => if namedBy flags rest k then setTrue f else f)
           (flags !! k).
Proof.
  revert error flags.
  induction rest as [|c value IH]; intros error flags Honly Herr;
    cbn [shortLoop onlyBooleans firstUnknown namedBy] in *.
  - split.
    + now destruct error.
    + intros k. cbn [snd]. now destruct (flags !! k).
  - destruct (findFlag (hasShort (String c EmptyString)) flags)
      as [[j fj]|] eqn:Hfind.
    + apply andb_prop in Honly as [Hbool Honly].
      apply findFlag_Some in Hfind as (Hj & _ & _).
      unfold isBoolean in Hbool.
      destruct (body fj) as [o cur|o cur|o cur] eqn:Hbody;
        try discriminate.
      assert (Hset : withBody fj (BooleanFlag o (Some true)) = setTrue fj).
      { unfold setTrue. now rewrite Hbody. }
      rewrite Hset.
      assert (Hsame : Forall2 sameDescriptor flags (<[j := setTrue fj]> flags)).
      { eapply sameRegistry_insert; eauto using sameDescriptor_setTrue. }
      destruct (bundle_notions_same _ _ value Hsame) as (H1 & H2 & H3).
      destruct (IH error (<[j := setTrue fj]> flags)) as [IHfst IHsnd];
        [now rewrite H1|exact Herr|].
      rewrite IHfst, H2. split; [reflexivity|].
      intros k. rewrite IHsnd, H3.
      destruct (Nat.eqb_spec j k) as [<-|Hne].
      * rewrite list_lookup_insert_eq by (eapply lookup_lt_Some; eauto).
        rewrite Hj. cbn [option_map orb]. rewrite setTrue_idem.
        now destruct (namedBy flags value j).
      * rewrite list_lookup_insert_ne by exact Hne. reflexivity.
    + cbn [andb] in Honly.
      destruct (IH (setError error
                      (Some (newParserError UNRECOGNIZED_FLAG
                               (String c EmptyString) None))) flags)
        as [IHfst IHsnd]; [exact Honly| |].
      * intros e0 H. apply setError_Some in H as [H|H]; auto.
        now injection H as <-.
      * rewrite IHfst. split; [|exact IHsnd].
        destruct error as [e0|]; [|reflexivity].
        cbn [setError newParserError kind kindValue].
        rewrite (Herr e0 eq_refl). reflexivity.
Qed.

(** X11.  A bundle in which every character that names a descriptor names
    a boolean one: the handler sets to [true] exactly the descriptors
    named by a character of the bundle and leaves the others as they are;
    it returns its own index, so no further token is consumed, unless
    some character names no descriptor, in which case it returns
    UNRECOGNIZED_FLAG citing the first such character (the flags are set
    all the same). *)
Theorem bundle_of_booleans (argPos : nat) (args : list string)
  (flags : list Flag) (token : string) :
  args !! argPos = Some token ->
  onlyBooleans flags (JsString.slice 1 token) = true ->
  exists flags',
    parseShortFlag argPos args flags
    = Some (match firstUnknown flags (JsString.slice 1 token) with
            | Some c =>
                Err (Some (newParserError UNRECOGNIZED_FLAG
                             (String c EmptyString) None))
            | None => Idx argPos
            end, flags')
    /\ forall k,
         flags' !! k
         = option_map
             (fun f => if namedBy flags (JsString.slice 1 token) k
                       then setTrue f else f)
             (flags !! k).
Proof.
  intros Htoken Honly. unfold parseShortFlag. rewrite Htoken.
  destruct (shortLoop_booleans argPos args (JsString.slice 1 token)
              (JsString.slice 1 token) None flags Honly)
    as [Hfst Hsnd]; [discriminate|].
  destruct (shortLoop argPos args (JsString.slice 1 token)
              (JsString.slice 1 token) None flags) as [o flags'] eqn:Hloop.
  cbn [fst snd] in Hfst, Hsnd. subst o. exists flags'. split; [|exact Hsnd].
  now destruct (firstUnknown flags (JsString.slice 1 token)).
Qed.

Lemma bundle_of_booleans_witness :
  exists flags',
    parseShortFlag 0 ["-vhq"]
      [ExampleProgram.help; ExampleProgram.version; ExampleProgram.verbose]
    = Some (Err (Some (newParserError UNRECOGNIZED_FLAG "q" None)), flags')
    /\ flags' !! 0 = Some (setTrue ExampleProgram.help)
    /\ flags' !! 1 = Some ExampleProgram.version
    /\ flags' !! 2 = Some (setTrue ExampleProgram.verbose).
Proof.
  destruct (bundle_of_booleans 0 ["-vhq"]
              [ExampleProgram.help; ExampleProgram.version;
               ExampleProgram.verbose] "-vhq" eq_refl eq_refl)
    as (flags' & Hparse & Hflags).
  exists flags'. split; [exact Hparse|].
  split; [exact (Hflags 0)|]. split; [exact (Hflags 1)|exact (Hflags 2)].
Defined.

(** ** Supplying a flag twice *)

Lemma bound_bound (flag : Flag) (v1 v2 : string) :
  bound (bound flag v1) v2 = bound flag v2.
Proof. unfold bound. destruct (body flag) eqn:Hb; simpl; now rewrite ?Hb. Qed.

Lemma setFlagValue_error_same (f g : Flag) (value arg : string) :
  sameDescriptor f g ->
  fst (setFlagValue f value arg) = fst (setFlagValue g value arg).
Proof.
  intros (_ & _ & _ & _ & Ho). unfold setFlagValue.
  destruct (body f), (body g); simpl in Ho; try tauto; subst; auto.
  - now destruct (JsNum.isNaN _).
  - destruct (oneOf _); auto. now destruct (negb _).
Qed.

(** X8.  The last write wins.  When [--<long>=<v2>] is handled after an
    earlier value [v1] has been bound to the same descriptor, the outcome
    and the registry are those of binding [v2] alone: the earlier value
    leaves no trace. *)
Theorem long_flag_overwrites (i : nat) (argv : list string)
  (flags : list Flag) (at_ : nat) (flag : Flag) (v1 v2 : string) :
  flags !! at_ = Some flag ->
  (forall j g, j < at_ -> flags !! j = Some g ->
               String.eqb (long g) (long flag) = false) ->
  JsString.indexOf "=" (long flag) = None ->
  argv !! i = Some ("--" ++ long flag ++ "=" ++ v2)%string ->
  v2 <> EmptyString ->
  parseLongFlag i argv (<[at_ := bound flag v1]> flags)
  = Some (orIndex (fst (setFlagValue flag v2 (long flag))) i,
          <[at_ := bound flag v2]> flags).
Proof.
  intros Hat Hfirst Heq Htoken Hv2.
  pose proof (sameDescriptor_bound flag v1) as Hsame.
  assert (Hlong : long (bound flag v1) = long flag)
    by (symmetry; apply Hsame).
  rewrite <- Hlong in Htoken, Heq.
  rewrite (parseLongFlag_equals i argv _ at_ (bound flag v1) v2 Htoken Heq);
    auto.
  - rewrite bound_bound, list_insert_insert_eq, Hlong.
    now rewrite <- (setFlagValue_error_same flag (bound flag v1)).
  - apply list_lookup_insert_eq. eapply lookup_lt_Some; eauto.
  - intros j g Hj Hg. rewrite Hlong.
    rewrite list_lookup_insert_ne in Hg by lia. eauto.
Qed.

Lemma long_flag_overwrites_witness :
  parseLongFlag 1 ["--count=1"; "--count=2"]
    [bound ExampleProgram.count "1"]
  = Some (Idx 1, [bound ExampleProgram.count "2"]).
Proof.
  refine (long_flag_overwrites 1 ["--count=1"; "--count=2"]
            [ExampleProgram.count] 0 ExampleProgram.count "1" "2"
            eq_refl _ eq_refl eq_refl _).
  - intros j g Hj. lia.
  - discriminate.
Defined.

(** ** Where a short flag takes its value from *)

(** X12.  A value that touches a string or number flag character in a
    bundle: the whole rest of the bundle is bound as the value, whatever
    flags its characters would name, and the handler returns the merged
    error or [null] and never an index, so that the next token is not
    consumed. *)
Theorem short_flag_touching_value (argPos : nat) (args : list string)
  (arg : string) (c : ascii) (value : string) (error : option ParserError)
  (flags : list Flag) (at_ : nat) (flag : Flag) :
  flags !! at_ = Some flag ->
  short flag = Some (String c EmptyString) ->
  (forall j g, j < at_ -> flags !! j = Some g ->
               hasShort (String c EmptyString) g = false) ->
  isBoolean flag = false ->
  value <> EmptyString ->
  shortLoop argPos args arg (String c value) error flags
  = (Err (setError error
            (fst (setFlagValue flag value (String c EmptyString)))),
     <[at_ := bound flag value]> flags).
Proof.
  intros Hat Hshort Hfirst Hkind Hvalue. cbn [shortLoop].
  assert (Hp : hasShort (String c EmptyString) flag = true).
  { unfold hasShort. rewrite Hshort. apply String.eqb_refl. }
  rewrite (findFlag_first _ flags at_ flag Hat Hp Hfirst).
  destruct value as [|d value]; [congruence|]. cbn [JsString.truthy].
  rewrite <- setFlagValue_bound with (arg := String c EmptyString).
  unfold isBoolean in Hkind.
  destruct (body flag); [discriminate| |];
    now destruct (setFlagValue flag (String d value) (String c EmptyString)).
Qed.

Lemma short_flag_touching_value_witness :
  shortLoop 0 ["-c5v"; "name"] "c5v" "c5v" None
    [ExampleProgram.verbose; ExampleProgram.count]
  = (Err (Some (newParserError NOT_A_NUMBER "c" None)),
     [ExampleProgram.verbose; bound ExampleProgram.count "5v"]).
Proof.
  refine (short_flag_touching_value 0 ["-c5v"; "name"] "c5v" "c" "5v" None
            [ExampleProgram.verbose; ExampleProgram.count] 1
            ExampleProgram.count eq_refl eq_refl _ eq_refl _).
  - intros [|j] g Hj Hg; [|lia]. simpl in Hg. now injection Hg as <-.
  - discriminate.
Defined.

(** X13.  A string flag with [argOptional], followed by a token that is
    not empty and POSITIONAL.  Given by its long name, the flag takes
    that token as its value.  Given by its short name at the end of a
    bundle, it takes the value of [argOptional] and the handler returns
    its own index: the token is left to be scanned as a positional
    argument. *)
Theorem argOptional_long_and_short (i : nat) (argv : list string)
  (arg : string) (c : ascii) (error : option ParserError)
  (flags : list Flag) (at_ : nat) (flag : Flag) (dflt next : string) :
  flags !! at_ = Some flag ->
  definedArgOptional flag = Some dflt ->
  short flag = Some (String c EmptyString) ->
  (forall j g, j < at_ -> flags !! j = Some g ->
               hasShort (String c EmptyString) g = false
               /\ matchesLong (long flag) g = false) ->
  JsString.indexOf "=" (long flag) = None ->
  nextPositional argv i = Some next ->
  (argv !! i = Some ("--" ++ long flag)%string ->
   parseLongFlag i argv flags
   = Some (orIndex (fst (setFlagValue flag next (long flag))) (i + 1),
           <[at_ := bound flag next]> flags))
  /\ shortLoop i argv arg (String c EmptyString) error flags
     = (orIndex error i, <[at_ := bound flag dflt]> flags).
Proof.
  intros Hat Hopt Hshort Hfirst Heq Hnext.
  assert (Hkind : isBoolean flag = false).
  { unfold definedArgOptional, isBoolean in *.
    now destruct (body flag). }
  split.
  - intros Htoken.
    rewrite (parseLongFlag_named i argv flags at_ flag); auto.
    + rewrite longValue_eq by exact Hkind. now rewrite Hnext.
    + intros j g Hj Hg. now apply (Hfirst j g).
  - cbn [shortLoop].
    assert (Hp : hasShort (String c EmptyString) flag = true).
    { unfold hasShort. rewrite Hshort. apply String.eqb_refl. }
    rewrite (findFlag_first _ flags at_ flag Hat Hp);
      [|intros j g Hj Hg; now apply (Hfirst j g)].
    cbn [JsString.truthy]. rewrite Hopt.
    unfold definedArgOptional, bound in *.
    destruct (body flag) as [o cur|o cur|o cur]; try discriminate.
    reflexivity.
Qed.

Lemma argOptional_long_and_short_witness :
  parseLongFlag 0 ["--prefix"; "Hi"] [ExampleProgram.prefix]
  = Some (Idx 1, [bound ExampleProgram.prefix "Hi"])
  /\ shortLoop 0 ["-p"; "Hi"] "p" "p" None [ExampleProgram.prefix]
     = (Idx 0, [bound ExampleProgram.prefix "Hello"]).
Proof.
  assert (Hfirst : forall j g, j < 0 ->
            [ExampleProgram.prefix] !! j = Some g ->
            hasShort "p" g = false
            /\ matchesLong (long ExampleProgram.prefix) g = false)
    by (intros j g Hj; lia).
  split.
  - exact (proj1 (argOptional_long_and_short 0 ["--prefix"; "Hi"] "p" "p"
                    None [ExampleProgram.prefix] 0 ExampleProgram.prefix
                    "Hello" "Hi" eq_refl eq_refl eq_refl Hfirst eq_refl
                    eq_refl) eq_refl).
  - exact (proj2 (argOptional_long_and_short 0 ["-p"; "Hi"] "p" "p"
                    None [ExampleProgram.prefix] 0 ExampleProgram.prefix
                    "Hello" "Hi" eq_refl eq_refl eq_refl Hfirst eq_refl
                    eq_refl)).
Defined.

Example parse_argOptional_asymmetry :
  option_map argvAfter
    (parse ["--prefix"; "Hi"] [Descriptor ExampleProgram.prefix]) = Some []
  /\ option_map argvAfter
       (parse ["-p"; "Hi"] [Descriptor ExampleProgram.prefix]) = Some ["Hi"].
Proof. split; reflexivity. Qed.

(** ** Inversion and classification, by the shape of the strings *)

Lemma prefix_cons (a b : ascii) (p s : string) :
  String.prefix (String a p) (String b s) = true <->
  a = b /\ String.prefix p s = true.
Proof.
  cbn [String.prefix]. destruct (ascii_dec a b); split; try tauto;
    try discriminate.
Qed.

Lemma prefix_cons_false (a b : ascii) (p s : string) :
  a <> b -> String.prefix (String a p) (String b s) = false.
Proof. intros H. cbn [String.prefix]. now destruct (ascii_dec a b). Qed.

Lemma startsWith_no (s : string) :
  JsString.startsWith "no-" s = true <-> s = ("no-" ++ JsString.slice 3 s)%string.
Proof.
  unfold JsString.startsWith. split.
  - destruct s as [|c1 [|c2 [|c3 r]]]; try discriminate.
    + cbn [String.prefix]. destruct (ascii_dec "n" c1); discriminate.
    + cbn [String.prefix]. destruct (ascii_dec "n" c1); [|discriminate].
      destruct (ascii_dec "o" c2); discriminate.
    + rewrite !prefix_cons. intros (<- & <- & <- & _). reflexivity.
  - intros ->.
    change ("no-" ++ JsString.slice 3 s)%string
      with (String "n" (String "o" (String "-" (JsString.slice 3 s)))).
    rewrite !prefix_cons. repeat split. now destruct (JsString.slice 3 s).
Qed.

(** X14.  [isInverted] holds exactly when one of the two names is the
    other one with [no-] in front; so [--no-x] inverts the flag [x] and
    [--x] inverts the flag [no-x], and no name inverts itself. *)
Theorem isInverted_spec (flagLong arg : string) :
  isInverted flagLong arg = true <->
  flagLong = ("no-" ++ arg)%string \/ arg = ("no-" ++ flagLong)%string.
Proof.
  unfold isInverted.
  rewrite orb_true_iff, !andb_true_iff, !String.eqb_eq, !startsWith_no.
  split.
  - intros [[H1 H2]|[H1 H2]]; [left|right]; congruence.
  - intros [->| ->]; [left|right]; auto.
Qed.

(** X15.  The classifier by the shape of the token, before the
    end-of-flags marker: the marker is exactly [--]; a long flag is [--]
    followed by at least one character; a short flag or bundle is one
    dash followed by anything that does not begin with a dash, the empty
    string included; every token that does not begin with a dash is
    positional. *)
Theorem parseArgType_spec (arg : string) :
  match parseArgType arg false with
  | FORCE_FLAG_END => arg = "--"%string
  | FLAG_LONG => exists r, arg = ("--" ++ r)%string /\ r <> EmptyString
  | FLAG_SHORT =>
      exists r, arg = ("-" ++ r)%string /\ JsString.startsWith "-" r = false
  | POSITIONAL => JsString.startsWith "-" arg = false
  end.
Proof.
  unfold parseArgType, JsString.startsWith.
  destruct (String.eqb_spec arg "--") as [->|Hne]; [reflexivity|].
  destruct arg as [|c1 arg]; [reflexivity|].
  destruct (ascii_dec "-" c1) as [<-|Hc1].
  - destruct arg as [|c2 arg]; [exists EmptyString; auto|].
    destruct (ascii_dec "-" c2) as [<-|Hc2].
    + assert (Hp : String.prefix "--" (String "-" (String "-" arg)) = true).
      { rewrite !prefix_cons. repeat split. now destruct arg. }
      rewrite Hp. exists arg. split; auto. intros ->. congruence.
    + assert (Hp : String.prefix "--" (String "-" (String c2 arg)) = false).
      { cbn [String.prefix]. destruct (ascii_dec "-" "-"); [|congruence].
        now destruct (ascii_dec "-" c2). }
      rewrite Hp. exists (String c2 arg).
      split; [reflexivity|now apply prefix_cons_false].
  - rewrite (prefix_cons_false "-" c1 "-" arg Hc1).
    assert (Hq : String.prefix "-" (String c1 arg) = false)
      by now apply prefix_cons_false.
    destruct c1 as [[] [] [] [] [] [] [] []]; try exact Hq.
    congruence.
Qed.

(** ** Stringify on nested arrays *)

Lemma append_assoc (a b c : string) :
  ((a ++ b) ++ c = a ++ (b ++ c))%string.
Proof. induction a as [|x a IH]; simpl; congruence. Qed.

Lemma join_app (sep : string) (xs ys : list string) :
  xs <> [] -> ys <> [] ->
  JsString.join sep (xs ++ ys)
  = (JsString.join sep xs ++ sep ++ JsString.join sep ys)%string.
Proof.
  unfold JsString.join. intros Hxs Hys.
  induction xs as [|x xs IH]; [congruence|].
  destruct xs as [|x' xs].
  - simpl. destruct ys; [congruence|reflexivity].
  - change (String.concat sep ((x :: x' :: xs) ++ ys))
      with (x ++ sep ++ String.concat sep ((x' :: xs) ++ ys))%string.
    rewrite IH by discriminate.
    change (String.concat sep (x :: x' :: xs))
      with (x ++ sep ++ String.concat sep (x' :: xs))%string.
    now rewrite !append_assoc.
Qed.

(** X16.  [stringify] flattens nested arrays: an array of non-empty
    arrays is rendered like the single array of all their elements. *)
Theorem stringify_flattens (groups : list (list JsValue)) :
  Forall (fun g => g <> []) groups ->
  stringify (VArray (map VArray groups))
  = stringify (VArray (List.concat groups)).
Proof.
  induction 1 as [|g groups Hg Hall IH]; [reflexivity|].
  destruct groups as [|g' groups].
  - simpl List.concat. rewrite app_nil_r. reflexivity.
  - change (stringify (VArray (map VArray (g :: g' :: groups))))
      with (stringify (VArray g) ++ ", "
            ++ stringify (VArray (map VArray (g' :: groups))))%string.
    rewrite IH.
    change (stringify (VArray (List.concat (g :: g' :: groups))))
      with (JsString.join ", "
              (map stringify (g ++ List.concat (g' :: groups)))).
    rewrite map_app, join_app; auto.
    + destruct g; [congruence|discriminate].
    + inversion Hall as [|? ? Hg' _]; subst.
      destruct g'; [congruence|discriminate].
Qed.

Lemma stringify_flattens_witness :
  stringify (VArray [VArray [VString "a"; VString "b c"]; VArray [VNull]])
  = stringify (VArray [VString "a"; VString "b c"; VNull]).
Proof.
  apply (stringify_flattens [[VString "a"; VString "b c"]; [VNull]]).
  repeat constructor; discriminate.
Defined.

(** * Properties of the help renderer *)

(** ** The help text does not depend on current values *)

Lemma flagInfo_same (numberToString : JsNumber -> string) (f g : Flag)
  (prefix : string) :
  sameDescriptor f g ->
  flagInfo numberToString (Descriptor f) prefix
  = flagInfo numberToString (Descriptor g) prefix.
Proof.
  destruct f as [l d s i b], g as [l' d' s' i' b'].
  unfold sameDescriptor. cbn [long description short invertable body].
  intros (-> & -> & -> & -> & Ho).
  destruct b, b'; simpl in Ho; try tauto; subst; reflexivity.
Qed.

Lemma refresh_flagInfo (numberToString : JsNumber -> string)
  (prefix : string) (entries : list RegistryEntry) (flags' : list Flag) :
  Forall2 sameDescriptor (filterFlags entries) flags' ->
  map (fun e => flagInfo numberToString e prefix) (refresh entries flags')
  = map (fun e => flagInfo numberToString e prefix) entries.
Proof.
  revert flags'. induction entries as [|[title|f] entries IH];
    intros flags' Hsame; cbn [refresh filterFlags map] in *.
  - reflexivity.
  - f_equal. now apply IH.
  - inversion Hsame as [|f0 g l1 l2 Hfg Hrest]; subst. cbn [map].
    f_equal; [symmetry; now apply flagInfo_same|now apply IH].
Qed.

(** X17.  The help text is the same before and after a parse: rendering
    the registry with the descriptors as [parse] left them gives, for
    every prefix option, what rendering the registry handed to [parse]
    gives. *)
Theorem info_unchanged_by_parse (numberToString : JsNumber -> string)
  (argv : list string) (flags : list RegistryEntry) (r : ParseResult)
  (options : PrefixOption) :
  parse argv flags = Some r ->
  info numberToString (refresh flags (flagsAfter r)) options
  = info numberToString flags options.
Proof.
  intros Hparse.
  assert (Hsame : Forall2 sameDescriptor (filterFlags flags) (flagsAfter r)).
  { unfold parse in Hparse.
    destruct (scan argv (filterFlags flags)) as [st|] eqn:Hscan;
      [|discriminate].
    injection Hparse as <-. eapply sameRegistry_trans.
    - eapply scan_sameRegistry; eauto.
    - unfold finish.
      pose proof (postLoop_sameRegistry (realFlags st) (error st)).
      now destruct (postLoop (realFlags st) (error st)). }
  unfold info. destruct (match options with
                         | PrefixUndefined => _
                         | PrefixString s => _
                         | PrefixNumber n => _
                         end) as [p|]; [|reflexivity].
  now rewrite (refresh_flagInfo numberToString p flags _ Hsame).
Qed.

Lemma info_unchanged_by_parse_witness :
  info (fun _ => "1"%string)
    (refresh ExampleProgram.flags
       (map defaulted
          [ExampleProgram.help; ExampleProgram.version;
           ExampleProgram.verbose; ExampleProgram.count;
           ExampleProgram.color; ExampleProgram.prefix;
           bound ExampleProgram.age "abc"; ExampleProgram.lastName]))
    (PrefixNumber (JsNum.ofZ 4))
  = info (fun _ => "1"%string) ExampleProgram.flags
      (PrefixNumber (JsNum.ofZ 4)).
Proof.
  exact (info_unchanged_by_parse (fun _ => "1"%string) ["--age"; "abc"]
           ExampleProgram.flags _ (PrefixNumber (JsNum.ofZ 4)) eq_refl).
Defined.

(** ** The column of the descriptions *)

Lemma append_nil_r (s : string) : (s ++ EmptyString)%string = s.
Proof. induction s as [|c s IH]; simpl; congruence. Qed.

Lemma append_cancel_l (p a b : string) :
  (p ++ a)%string = (p ++ b)%string -> a = b.
Proof.
  induction p as [|c p IH]; simpl; [auto|]. intros [= H]. auto.
Qed.

Lemma columnFrom_app (n : nat) (a b : string) :
  columnFrom n (a ++ b) = columnFrom (columnFrom n a) b.
Proof.
  revert n. induction a as [|c a IH]; intros n; cbn [append columnFrom]; auto.
  destruct (Ascii.eqb c (ascii_of_nat 10)); apply IH.
Qed.

Lemma columnFrom_spaces (n k : nat) : columnFrom n (spaces k) = n + k.
Proof.
  revert n. induction k as [|k IH]; intros n; cbn [spaces columnFrom].
  - lia.
  - change (Ascii.eqb " " (ascii_of_nat 10)) with false. cbv iota.
    rewrite IH. lia.
Qed.

Lemma columnFrom_plain (n : nat) (s : string) :
  hasNewline s = false -> columnFrom n s = n + String.length s.
Proof.
  unfold hasNewline. revert n.
  induction s as [|c s IH]; intros n; cbn [JsString.existsChar columnFrom
                                            String.length].
  - lia.
  - destruct (Ascii.eqb c (ascii_of_nat 10)); [discriminate|].
    cbn [orb]. intros H. rewrite IH by exact H. lia.
Qed.

Lemma columnFrom_newline (n : nat) (s : string) :
  columnFrom n (newline ++ s) = columnFrom 0 s.
Proof. reflexivity. Qed.

Lemma flagPad_column (prefix line : string) :
  hasNewline line = false ->
  column (prefix ++ line ++ flagPad prefix line)
  = column prefix + INFO_FLAG_WIDTH.
Proof.
  intros Hline. unfold column, flagPad.
  rewrite !columnFrom_app, (columnFrom_plain _ line Hline).
  destruct (Nat.leb_spec (INFO_FLAG_WIDTH - 1) (String.length line)).
  - now rewrite columnFrom_newline, columnFrom_app, columnFrom_spaces.
  - rewrite columnFrom_spaces. unfold INFO_FLAG_WIDTH in *. lia.
Qed.

(** X18.  Every description starts in the same column.  In the text of a
    descriptor whose names hold no line break, the description comes
    after the prefix, the names and the padding, and the column reached
    there is that of the prefix plus 26, whether the names fit before
    that column or the description is moved to a line of its own. *)
Theorem description_column (numberToString : JsNumber -> string)
  (flag : Flag) (prefix : string) :
  hasNewline (flagHead flag) = false ->
  (exists tail,
      flagInfo numberToString (Descriptor flag) prefix
      = ((prefix ++ flagHead flag ++ flagPad prefix (flagHead flag))
         ++ description flag ++ tail)%string)
  /\ column (prefix ++ flagHead flag ++ flagPad prefix (flagHead flag))
     = column prefix + 26.
Proof.
  intros Hline. split; [|now apply flagPad_column].
  unfold flagInfo.
  set (base := ((flagHead flag ++ flagPad prefix (flagHead flag))
                ++ description flag)%string).
  assert (Hshape : forall extra,
    (prefix ++ base ++ extra)%string
    = ((prefix ++ flagHead flag ++ flagPad prefix (flagHead flag))
       ++ description flag ++ extra)%string).
  { intros extra. unfold base. now rewrite !append_assoc. }
  assert (Hnote : forall line extra,
    (prefix ++ line)%string = (prefix ++ base ++ extra)%string ->
    exists tail,
      (prefix ++ match defaultNote numberToString flag with
                 | Some text => line ++ " (Default: " ++ text ++ ")"
                 | None => line
                 end)%string
      = ((prefix ++ flagHead flag ++ flagPad prefix (flagHead flag))
         ++ description flag ++ tail)%string).
  { intros line extra Hl.
    apply append_cancel_l in Hl. subst line.
    destruct (defaultNote numberToString flag) as [text|].
    - exists (extra ++ " (Default: " ++ text ++ ")")%string.
      now rewrite <- Hshape, !append_assoc.
    - exists extra. apply Hshape. }
  destruct (body flag) as [o c|o c|o c].
  - apply (Hnote base EmptyString). now rewrite append_nil_r.
  - apply (Hnote base EmptyString). now rewrite append_nil_r.
  - destruct (oneOf o) as [allowed|].
    + eapply Hnote. rewrite !append_assoc. reflexivity.
    + apply (Hnote base EmptyString). now rewrite append_nil_r.
Qed.

Lemma description_column_witness :
  column ("    " ++ flagHead ExampleProgram.prefix
          ++ flagPad "    " (flagHead ExampleProgram.prefix)) = 30
  /\ column ("    " ++ flagHead ExampleProgram.help
             ++ flagPad "    " (flagHead ExampleProgram.help)) = 30.
Proof.
  split.
  - exact (proj2 (description_column (fun _ => "1"%string)
                    ExampleProgram.prefix "    " eq_refl)).
  - exact (proj2 (description_column (fun _ => "1"%string)
                    ExampleProgram.help "    " eq_refl)).
Defined.

(** * Further properties of the driver *)

Lemma rank_bound (e : option ParserError) : (rank e <= 7)%Z.
Proof. destruct e as [[[] m]|]; simpl; lia. Qed.

(** X19.  UNRECOGNIZED_FLAG has the greatest kind, so once the driver
    retains such an error the rest of the scan keeps it: of several
    unknown flags, the first one is the one reported. *)
Theorem first_unrecognized_flag_wins (argv : list string) (fuel : nat)
  (st st' : ScanState) (e : ParserError) :
  scanLoop fuel argv st = Some st' ->
  error st = Some e ->
  kind e = UNRECOGNIZED_FLAG ->
  error st' = Some e.
Proof.
  intros Hloop Herr Hkind.
  assert (Hkeep : forall s1 s2, error s1 = Some e ->
            scanStep argv s1 = Some s2 -> error s2 = Some e).
  { intros s1 s2 H1 Hstep.
    destruct (scanStep_error _ _ _ Hstep) as [H2|H2]; [congruence|].
    pose proof (rank_bound (error s2)). rewrite H1 in H2. simpl in H2.
    rewrite Hkind in H2. simpl in H2. lia. }
  exact (scanLoop_invariant argv (fun s => error s = Some e) Hkeep
           fuel st st' Herr Hloop).
Qed.

Lemma first_unrecognized_flag_wins_witness :
  exists st',
    scanLoop 2 ["--bogus"; "--worse"; "-c"]
      (mkScan 1 (Some (newParserError UNRECOGNIZED_FLAG "bogus" None))
         false [] [ExampleProgram.count]) = Some st'
    /\ error st' = Some (newParserError UNRECOGNIZED_FLAG "bogus" None).
Proof.
  eexists. split; [reflexivity|].
  apply (first_unrecognized_flag_wins ["--bogus"; "--worse"; "-c"] 2
           (mkScan 1 (Some (newParserError UNRECOGNIZED_FLAG "bogus" None))
              false [] [ExampleProgram.count]));
    reflexivity.
Defined.

(** X20.  Parsing the rewritten argument list again changes nothing.
    When the argument vector holds no end-of-flags marker, the positional
    arguments that a scan collects are scanned, against any registry, as
    positional arguments again: all of them are collected in order, no
    descriptor is touched and no error is recorded. *)
Theorem rescan_is_identity (argv : list string) (flags flags2 : list Flag)
  (st : ScanState) :
  scan argv flags = Some st ->
  ~ In "--"%string argv ->
  scan (restArgv st) flags2
  = Some (mkScan (length (restArgv st)) None false (restArgv st) flags2).
Proof.
  intros Hscan Hmarker.
  destruct (scan_restInvariant _ _ _ Hscan) as (_ & _ & Hall).
  unfold scan.
  rewrite (scanLoop_positional (restArgv st) (length (restArgv st))
             (scanStart flags2)); simpl; auto; try lia.
  eapply Forall_impl; [exact Hall|]. intros a [H|H]; tauto.
Qed.

Lemma rescan_is_identity_witness :
  scan ["pos1"; "pos2"] [ExampleProgram.count]
  = Some (mkScan 2 None false ["pos1"; "pos2"] [ExampleProgram.count]).
Proof.
  refine (rescan_is_identity ["pos1"; "--count"; "3"; "pos2"]
            [ExampleProgram.count] [ExampleProgram.count] _ eq_refl _).
  intros [H|[H|[H|[H|[]]]]]; discriminate.
Defined.

Lemma defaulted_settled (f : Flag) :
  unsetRequired f = false -> settled (defaulted f).
Proof.
  destruct f as [l d s i [o c|o [c|]|o [c|]]];
    unfold defaulted, postCheck, unsetRequired, settled; cbn [body snd];
    auto.
  - intros Hreq. rewrite Hreq.
    destruct (numberDefault o) eqn:Hd; simpl; auto.
  - intros Hreq. rewrite Hreq.
    destruct (stringDefault o) eqn:Hd; simpl; auto.
Qed.

(** X21.  After a successful parse in which no urgent flag is set, every
    string or number descriptor that is still unset has no default and is
    not required: each default has been applied and no required flag is
    missing. *)
Theorem success_applies_defaults (argv : list string)
  (flags : list RegistryEntry) (r : ParseResult) :
  parse argv flags = Some r ->
  returned r = None ->
  existsb urgentHit (flagsAfter r) = false ->
  Forall settled (flagsAfter r).
Proof.
  unfold parse. destruct (scan argv (filterFlags flags)) as [st|];
    [|discriminate].
  intros [= <-]. unfold finish.
  destruct (existsb urgentHit (realFlags st)) eqn:Hurgent.
  - destruct (first_urgent _ Hurgent)
      as (before & hit & after & Heq & Hhit & Hbefore).
    rewrite Heq, (postLoop_urgent before after hit (error st) Hbefore Hhit).
    cbn [returned flagsAfter]. intros _ Hnone. exfalso.
    rewrite existsb_app in Hnone. simpl in Hnone. rewrite Hhit in Hnone.
    now rewrite orb_true_r in Hnone.
  - apply no_urgent in Hurgent. destruct (error st) as [e|] eqn:Herr.
    + destruct (postLoop_checked (realFlags st) (Some e) Hurgent)
        as [e' Hpost].
      rewrite Hpost. apply postLoop_keeps_error in Hpost. subst e'.
      discriminate.
    + rewrite (postLoop_first_required _ Hurgent). cbn [returned flagsAfter].
      destruct (findFlag unsetRequired (realFlags st)) as [[k f]|] eqn:Hfind;
        [discriminate|].
      intros _ _. apply findFlag_None in Hfind.
      rewrite forallb_forall in Hfind. apply Forall_forall.
      intros g Hg. apply list_elem_of_In, in_map_iff in Hg as (f & <- & Hf).
      apply defaulted_settled. apply Hfind in Hf.
      now destruct (unsetRequired f).
Qed.

Lemma success_applies_defaults_witness :
  Forall settled
    [defaulted ExampleProgram.count; bound ExampleProgram.color "never";
     defaulted ExampleProgram.prefix].
Proof.
  exact (success_applies_defaults ["--color=never"]
           [Descriptor ExampleProgram.count; Descriptor ExampleProgram.color;
            Descriptor ExampleProgram.prefix]
           _ eq_refl eq_refl eq_refl).
Defined.
